(** * Scalarized upper confidence bound acquisition functions

    A shallow embedding of the two acquisition functions of
    [tutorials/custom_acquisition.ipynb]:

    - [qScalarizedUpperConfidenceBound.forward], the Monte-Carlo scorer;
    - [ScalarizedUpperConfidenceBound.forward], the analytic scorer.

    Tensors are modelled as torch stores them: a shape and the row-major list
    of the elements.  The tensor operations used by the two [forward] methods
    ([matmul], [squeeze], [view], [expand], [permute], [bmm], the broadcasting
    arithmetic, [max(dim=-1)], [mean(dim=0)], [to]) are written out with the
    shape checks that make torch raise.

    The two methods use the global names [math] and [torch].  The cells that
    define the classes import neither module, so the lookup of these names is
    part of the model ([Namespace]): in the namespace of the notebook both
    lookups raise [NameError]; the properties of the arithmetic are stated
    for a namespace that binds the two names to the standard modules.

    The element type is abstract ([Scalar]).  The executable instance is IEEE
    binary64 ([float]); the algebraic properties are proved from laws of IEEE
    arithmetic: [IEEE], the laws of the special values, the signs and the
    comparison, proved for binary64, and [IEEEOrder], the monotonicity of the
    correctly rounded operations, proved for the exact extended reals
    ([xreal]). *)

From Stdlib Require Import Floats.
From Stdlib Require Import ZArith List Arith Bool Lia Reals Lra.
Import ListNotations.

Set Implicit Arguments.
Set Warnings "-inexact-float".

(** ** Element types and devices *)

Inductive dtype : Type := float16 | float32 | float64.

Inductive device : Type := cpu | cuda (index : nat).

Record TensorOptions : Type := mkOptions {
  t_dtype : dtype;
  t_device : device
}.

Definition dtype_eqb (a b : dtype) : bool :=
  match a, b with
  | float16, float16 | float32, float32 | float64, float64 => true
  | _, _ => false
  end.

Definition device_eqb (a b : device) : bool :=
  match a, b with
  | cpu, cpu => true
  | cuda i, cuda j => i =? j
  | _, _ => false
  end.

Definition options_eqb (a b : TensorOptions) : bool :=
  dtype_eqb (t_dtype a) (t_dtype b) && device_eqb (t_device a) (t_device b).

(** ** Element arithmetic *)

(** The operations the two scorers apply to tensor elements.  [s_math_sqrt] is
    Python's [math.sqrt], which raises on a negative argument ([None]);
    [s_sqrt] is the element-wise [Tensor.sqrt], which does not raise;
    [s_cast] is the conversion of an element to a dtype.  The classification
    and comparison functions are used to state properties only. *)
Class Scalar (T : Type) : Type := {
  s_zero : T;
  s_add : T -> T -> T;
  s_sub : T -> T -> T;
  s_mul : T -> T -> T;
  s_div : T -> T -> T;
  s_abs : T -> T;
  s_sqrt : T -> T;
  s_max : T -> T -> T;
  s_of_nat : nat -> T;
  s_pi : T;
  s_math_sqrt : T -> option T;
  s_cast : dtype -> T -> T;
  s_is_nan : T -> bool;
  s_is_zero : T -> bool;
  s_is_finite : T -> bool;
  s_ltb : T -> T -> bool;
  s_leb : T -> T -> bool
}.

(** Equality of two elements as numbers: the same element, or two zeros
    (of either sign). *)
Definition same {T : Type} `{Scalar T} (a b : T) : Prop :=
  a = b \/ (s_is_zero a = true /\ s_is_zero b = true).

(** Python exceptions raised by the modelled operations. *)
Inductive exn : Type :=
| RuntimeError
| IndexError
| ValueError
| NameError.

Inductive result (A : Type) : Type :=
| Ok (a : A)
| Raise (e : exn).

Arguments Ok {A} a.
Arguments Raise {A} e.

Definition rbind {A B : Type} (r : result A) (k : A -> result B) : result B :=
  match r with
  | Ok a => k a
  | Raise e => Raise e
  end.

(** ** Global names

    Which of the module names used by the two [forward] methods the global
    namespace binds. *)
Class Namespace : Type := {
  binds_math : bool;
  binds_torch : bool
}.

(** The notebook: the cell of [qScalarizedUpperConfidenceBound] imports
    [MCSampler], [MCAcquisitionObjective], [MCAcquisitionFunction], [Model],
    [t_batch_mode_transform], [Tensor] and [Optional]; the cell of
    [ScalarizedUpperConfidenceBound] imports [AnalyticAcquisitionFunction],
    [Model], [q_batch_mode_transform], [Tensor] and [Optional].  No cell
    binds [math] or [torch]. *)
#[export] Instance notebook : Namespace := {|
  binds_math := false;
  binds_torch := false
|}.

(** A namespace in which [import math] and [import torch] have been run. *)
Definition with_imports : Namespace := {|
  binds_math := true;
  binds_torch := true
|}.

(** The evaluation of a global name. *)
Definition lookup (bound : bool) : result unit :=
  if bound then Ok tt else Raise NameError.

(** ** Tensors *)

Definition numel (s : list nat) : nat := fold_right Nat.mul 1 s.

Definition slice {A : Type} (start len : nat) (l : list A) : list A :=
  firstn len (skipn start l).

Section TensorOps.

Context {T : Type} `{Scalar T}.

Record Tensor : Type := mkTensor {
  shape : list nat;
  data : list T
}.

(** A tensor holds as many elements as its shape says. *)
Definition wf_tensor (t : Tensor) : Prop :=
  length (data t) = numel (shape t).

Definition sum (l : list T) : T := fold_left s_add l s_zero.

(** Inner product of two rows, accumulated from zero. *)
Definition dot (a b : list T) : T :=
  fold_left (fun acc p => s_add acc (s_mul (fst p) (snd p)))
            (combine a b) s_zero.

(** [A.matmul(w)] for a 1-D [w]: the last dimension of [A] is contracted
    with [w]; torch raises when the two sizes differ. *)
Definition matmul (A : Tensor) (w : list T) : result Tensor :=
  match rev (shape A) with
  | [] => Raise RuntimeError
  | o :: rs =>
      if o =? length w then
        Ok (mkTensor (rev rs)
              (map (fun i => dot (slice (i * o) o (data A)) w)
                   (seq 0 (numel (rev rs)))))
      else Raise RuntimeError
  end.

(** [A.squeeze(dim=-2)]: the last but one dimension is removed when its size
    is 1, and the tensor is returned as it is otherwise. *)
Definition squeeze_m2 (A : Tensor) : result Tensor :=
  match rev (shape A) with
  | o :: k :: rs =>
      if k =? 1 then Ok (mkTensor (rev (o :: rs)) (data A)) else Ok A
  | _ => Raise IndexError
  end.

(** [w.view(1, -1, 1)] for a 1-D [w]: the size [-1] is the number of
    elements, also when there is none. *)
Definition view_1_m1_1 (w : list T) : result Tensor :=
  Ok (mkTensor [1; length w; 1] w).

(** [A.view(s)] for a shape [s] without [-1]. *)
Definition view (A : Tensor) (s : list nat) : result Tensor :=
  if numel s =? numel (shape A) then Ok (mkTensor s (data A))
  else Raise RuntimeError.

(** Broadcasting of row-major data from shape [src] to shape [tgt] of the
    same length, where every size of [src] is the size of [tgt] or 1. *)
Fixpoint bcast (src tgt : list nat) (d : list T) : list T :=
  match src, tgt with
  | a :: src', b :: tgt' =>
      if a =? b then
        flat_map
          (fun i => bcast src' tgt' (slice (i * numel src') (numel src') d))
          (seq 0 a)
      else concat (repeat (bcast src' tgt' d) b)
  | _, _ => d
  end.

Fixpoint expandable (src tgt : list nat) : bool :=
  match src, tgt with
  | [], [] => true
  | a :: src', b :: tgt' => ((a =? b) || (a =? 1)) && expandable src' tgt'
  | _, _ => false
  end.

(** [A.expand(tgt)]: sizes are aligned from the last one, missing leading
    dimensions are added. *)
Definition expand (A : Tensor) (tgt : list nat) : result Tensor :=
  if length (shape A) <=? length tgt then
    let src := repeat 1 (length tgt - length (shape A)) ++ shape A in
    if expandable src tgt then Ok (mkTensor tgt (bcast src tgt (data A)))
    else Raise RuntimeError
  else Raise RuntimeError.

Definition expand_as (A B : Tensor) : result Tensor := expand A (shape B).

(** The shape two operands of an element-wise operation broadcast to. *)
Fixpoint broadcast_aligned (s1 s2 : list nat) : option (list nat) :=
  match s1, s2 with
  | [], [] => Some []
  | a :: s1', b :: s2' =>
      match broadcast_aligned s1' s2' with
      | Some s =>
          if a =? b then Some (a :: s)
          else if a =? 1 then Some (b :: s)
          else if b =? 1 then Some (a :: s)
          else None
      | None => None
      end
  | _, _ => None
  end.

Definition broadcast_shapes (s1 s2 : list nat) : option (list nat) :=
  let n := Nat.max (length s1) (length s2) in
  broadcast_aligned (repeat 1 (n - length s1) ++ s1)
                    (repeat 1 (n - length s2) ++ s2).

(** Element-wise binary operation with broadcasting. *)
Definition binop (f : T -> T -> T) (A B : Tensor) : result Tensor :=
  match broadcast_shapes (shape A) (shape B) with
  | Some s =>
      rbind (expand A s) (fun A' =>
      rbind (expand B s) (fun B' =>
      Ok (mkTensor s (map (fun p => f (fst p) (snd p))
                          (combine (data A') (data B'))))))
  | None => Raise RuntimeError
  end.

Definition tadd : Tensor -> Tensor -> result Tensor := binop s_add.
Definition tsub : Tensor -> Tensor -> result Tensor := binop s_sub.
Definition tmul : Tensor -> Tensor -> result Tensor := binop s_mul.

Definition tmap (f : T -> T) (A : Tensor) : Tensor :=
  mkTensor (shape A) (map f (data A)).

Definition tsqrt : Tensor -> Tensor := tmap s_sqrt.
Definition tabs : Tensor -> Tensor := tmap s_abs.

(** [A.permute(0, 2, 1)]: defined for 3-D tensors only. *)
Definition permute_0_2_1 (A : Tensor) : result Tensor :=
  match shape A with
  | [b; n; m] =>
      Ok (mkTensor [b; m; n]
            (flat_map (fun i =>
               flat_map (fun k =>
                 map (fun j => nth ((i * n + j) * m + k) (data A) s_zero)
                     (seq 0 n))
                 (seq 0 m))
               (seq 0 b)))
  | _ => Raise RuntimeError
  end.

(** [torch.bmm(A, B)]: batched product of [b x n x m] with [b x m x p]. *)
Definition bmm (A B : Tensor) : result Tensor :=
  match shape A, shape B with
  | [b; n; m], [b'; m'; p] =>
      if (b =? b') && (m =? m') then
        Ok (mkTensor [b; n; p]
              (flat_map (fun i =>
                 flat_map (fun j =>
                   map (fun k =>
                     dot (slice ((i * n + j) * m) m (data A))
                         (map (fun l =>
                                 nth ((i * m + l) * p + k) (data B) s_zero)
                              (seq 0 m)))
                     (seq 0 p))
                   (seq 0 n))
                 (seq 0 b)))
      else Raise RuntimeError
  | _, _ => Raise RuntimeError
  end.

Definition max_list (l : list T) : T :=
  match l with
  | [] => s_zero
  | x :: xs => fold_left s_max xs x
  end.

(** [A.max(dim=-1)[0]]: torch raises on a last dimension of size 0; a 0-D
    tensor is its own maximum. *)
Definition max_dim_last (A : Tensor) : result Tensor :=
  match rev (shape A) with
  | [] => Ok A
  | q :: rs =>
      if q =? 0 then Raise IndexError
      else Ok (mkTensor (rev rs)
                 (map (fun i => max_list (slice (i * q) q (data A)))
                      (seq 0 (numel (rev rs)))))
  end.

(** [A.mean(dim=0)]: the sum over the first dimension divided by its size;
    over no element this is 0/0. *)
Definition mean_dim0 (A : Tensor) : result Tensor :=
  match shape A with
  | [] => Ok A
  | n :: rs =>
      Ok (mkTensor rs
            (map (fun j =>
                    s_div
                      (sum (map (fun i =>
                                   nth (i * numel rs + j) (data A) s_zero)
                                (seq 0 n)))
                      (s_of_nat n))
                 (seq 0 (numel rs))))
  end.

(** [float(A)]: only a tensor of one element converts to a Python number. *)
Definition item (A : Tensor) : result T :=
  match data A with
  | [x] => Ok x
  | _ => Raise ValueError
  end.

(** [math.sqrt(x)] *)
Definition math_sqrt (x : T) : result T :=
  match s_math_sqrt x with
  | Some y => Ok y
  | None => Raise ValueError
  end.

End TensorOps.

Arguments Tensor T : clear implicits.

(** ** Tensors with their dtype and device, posteriors, models *)

(** A tensor as a caller hands it over or as a module registers it: the
    elements together with the dtype and the device they are stored with. *)
Record DTensor (T : Type) : Type := mkDTensor {
  options : TensorOptions;
  value : Tensor T
}.

(** [a.to(like)]: [a] itself when it has the dtype and the device of [like]
    already; otherwise a tensor with the dtype and device of [like], whose
    elements are those of [a], converted when the dtype changes. *)
Definition to {T : Type} `{Scalar T} (a like : DTensor T) : DTensor T :=
  if options_eqb (options a) (options like) then a
  else
    mkDTensor (options like)
      (if dtype_eqb (t_dtype (options a)) (t_dtype (options like))
       then value a
       else tmap (s_cast (t_dtype (options like))) (value a)).

(** What the scorers read of a posterior. *)
Record Posterior (T : Type) : Type := mkPosterior {
  mean : Tensor T;
  covariance_matrix : Tensor T
}.

(** The collaborators of the scorers: [model.posterior(X)] and
    [sampler(posterior)]; both may raise. *)
Record Model (T : Type) : Type := mkModel {
  posterior : DTensor T -> result (Posterior T)
}.

Definition MCSampler (T : Type) : Type := Posterior T -> result (Tensor T).

(** The calls a scorer makes to its collaborators, in the order made. *)
Inductive call (T : Type) : Type :=
| call_posterior (X : DTensor T)
| call_sampler (p : Posterior T).

(** ** Computations on an instance

    A method runs on the instance [self] and the log of the calls made so
    far; a raised exception keeps the assignments and the calls made before
    it. *)

Record world (T S : Type) : Type := mkWorld {
  self : S;
  calls : list (call T)
}.

Definition M (T S A : Type) : Type := world T S -> result A * world T S.

Definition ret {T S A : Type} (a : A) : M T S A := fun w => (Ok a, w).

Definition bind {T S A B : Type} (c : M T S A) (k : A -> M T S B) : M T S B :=
  fun w =>
    match c w with
    | (Ok a, w') => k a w'
    | (Raise e, w') => (Raise e, w')
    end.

Definition lift {T S A : Type} (r : result A) : M T S A := fun w => (r, w).

Definition get_self {T S : Type} : M T S S := fun w => (Ok (self w), w).

Definition set_self {T S : Type} (s : S) : M T S unit :=
  fun w => (Ok tt, mkWorld s (calls w)).

Definition log_call {T S : Type} (c : call T) : M T S unit :=
  fun w => (Ok tt, mkWorld (self w) (calls w ++ [c])).

Declare Scope monad_scope.
Delimit Scope monad_scope with monad.
Notation "x <- c ;; k" := (bind c (fun x => k))
  (at level 61, c at next level, right associativity) : monad_scope.
Notation "c ;;; k" := (bind c (fun _ => k))
  (at level 61, right associativity) : monad_scope.

(** A computation that leaves the instance as it found it. *)
Definition keeps_self {T S A : Type} (c : M T S A) : Prop :=
  forall w, self (snd (c w)) = self w.

(** [X.shape[:-2]] *)
Definition shape_but_last2 (s : list nat) : list nat :=
  firstn (length s - 2) s.

(** ** The Monte-Carlo scorer *)

Module qScalarizedUpperConfidenceBound.
Section Scorer.

Context {T : Type} `{Scalar T} {ns : Namespace}.

(** The instance: [self.model], [self.sampler] and the two registered
    buffers. *)
Record t : Type := mk {
  model : Model T;
  sampler : MCSampler T;
  beta : DTensor T;
  weights : list T
}.

Local Open Scope monad_scope.

(** [forward], on the input as [t_batch_mode_transform] hands it over, with
    an explicit t-batch dimension ([b x q x d]). *)
Definition forward (X : DTensor T) : M T t (Tensor T) :=
  self <- get_self ;;
  (* posterior = self.model.posterior(X) *)
  log_call (call_posterior X) ;;;
  posterior <- lift (posterior (model self) X) ;;
  (* samples = self.sampler(posterior)                      n x b x q x o *)
  log_call (call_sampler posterior) ;;;
  samples <- lift (sampler self posterior) ;;
  (* scalarized_samples = samples.matmul(self.weights)          n x b x q *)
  scalarized_samples <- lift (matmul samples (weights self)) ;;
  (* mean = posterior.mean                                      b x q x o *)
  let mean := mean posterior in
  (* scalarized_mean = mean.matmul(self.weights)                    b x q *)
  scalarized_mean <- lift (matmul mean (weights self)) ;;
  (* math.sqrt(self.beta * math.pi / 2): the name math is looked up first *)
  lift (lookup binds_math) ;;;
  arg <- lift (item (tmap (fun b => s_div (s_mul b s_pi) (s_of_nat 2))
                          (value (beta self)))) ;;
  factor <- lift (math_sqrt arg) ;;
  (* (scalarized_samples - scalarized_mean).abs() *)
  dev <- lift (tsub scalarized_samples scalarized_mean) ;;
  (* ucb_samples = scalarized_mean + factor * dev.abs() *)
  ucb_samples <- lift (tadd scalarized_mean (tmap (s_mul factor) (tabs dev))) ;;
  (* return ucb_samples.max(dim=-1)[0].mean(dim=0) *)
  best <- lift (max_dim_last ucb_samples) ;;
  lift (mean_dim0 best).

End Scorer.
End qScalarizedUpperConfidenceBound.

(** ** The analytic scorer *)

Module ScalarizedUpperConfidenceBound.
Section Scorer.

Context {T : Type} `{Scalar T} {ns : Namespace}.

(** The instance: [self.model], [self.maximize] and the two registered
    buffers. *)
Record t : Type := mk {
  model : Model T;
  beta : DTensor T;
  weights : list T;
  maximize : bool
}.

Definition set_beta (s : t) (b : DTensor T) : t :=
  mk (model s) b (weights s) (maximize s).

Local Open Scope monad_scope.

(** [forward], on the input as [q_batch_mode_transform] and
    [t_batch_mode_transform] hand it over, with explicit t-batch and q-batch
    dimensions ([b x 1 x d]). *)
Definition forward (X : DTensor T) : M T t (Tensor T) :=
  (* self.beta = self.beta.to(X) *)
  self0 <- get_self ;;
  set_self (set_beta self0 (to (beta self0) X)) ;;;
  self <- get_self ;;
  (* batch_shape = X.shape[:-2] *)
  let batch_shape := shape_but_last2 (shape (value X)) in
  (* posterior = self.model.posterior(X) *)
  log_call (call_posterior X) ;;;
  posterior <- lift (posterior (model self) X) ;;
  (* means = posterior.mean.squeeze(dim=-2)                         b x o *)
  means <- lift (squeeze_m2 (mean posterior)) ;;
  (* scalarized_mean = means.matmul(self.weights)                       b *)
  scalarized_mean <- lift (matmul means (weights self)) ;;
  (* covs = posterior.covariance_matrix                         b x o x o *)
  let covs := covariance_matrix posterior in
  (* weights = self.weights.view(1, -1, 1)                      1 x o x 1 *)
  weights <- lift (view_1_m1_1 (weights self)) ;;
  (* weights = weights.expand(batch_shape + weights.shape[1:])  b x o x 1 *)
  weights <- lift (expand weights (batch_shape ++ tl (shape weights))) ;;
  (* weights_transpose = weights.permute(0, 2, 1)               b x 1 x o *)
  weights_transpose <- lift (permute_0_2_1 weights) ;;
  (* scalarized_variance = torch.bmm(weights_transpose,
                                     torch.bmm(covs, weights)
                                    ).view(batch_shape)                 b
     the name torch is looked up for the outer call first *)
  lift (lookup binds_torch) ;;;
  inner <- lift (bmm covs weights) ;;
  outer <- lift (bmm weights_transpose inner) ;;
  scalarized_variance <- lift (view outer batch_shape) ;;
  (* delta = (self.beta.expand_as(scalarized_mean)
              * scalarized_variance).sqrt() *)
  beta_b <- lift (expand_as (value (beta self)) scalarized_mean) ;;
  scaled <- lift (tmul beta_b scalarized_variance) ;;
  let delta := tsqrt scaled in
  (* return scalarized_mean + delta if self.maximize
     else scalarized_mean - delta *)
  if maximize self then lift (tadd scalarized_mean delta)
  else lift (tsub scalarized_mean delta).

End Scorer.
End ScalarizedUpperConfidenceBound.

(** ** IEEE binary64 elements *)

(** The classification of a binary64 number, read off its sign, mantissa
    and exponent. *)
Definition float_is_nan (x : float) : bool :=
  match Prim2SF x with
  | S754_nan => true
  | _ => false
  end.

Definition float_is_zero (x : float) : bool :=
  match Prim2SF x with
  | S754_zero _ => true
  | _ => false
  end.

Definition float_is_finite (x : float) : bool :=
  match Prim2SF x with
  | S754_zero _ | S754_finite _ _ _ => true
  | _ => false
  end.

(** [torch.max] hands a NaN on. *)
Definition float_max (a b : float) : float :=
  if float_is_nan a then a
  else if float_is_nan b then b
  else if PrimFloat.ltb a b then b else a.

(** Exact for the counts that occur (below 2^53). *)
Definition float_of_nat (n : nat) : float :=
  Nat.iter n (fun x => PrimFloat.add x PrimFloat.one) PrimFloat.zero.

(** [math.pi] *)
Definition float_pi : float := 0x1.921fb54442d18p+1%float.

Definition float_math_sqrt (x : float) : option float :=
  if PrimFloat.ltb x PrimFloat.zero then None else Some (PrimFloat.sqrt x).

(** Rounding (to nearest, ties to even) of a binary64 number to the format
    with [p] bits of precision and exponents below [em]. *)
Definition float_round (p em : Z) (x : float) : float :=
  match Prim2SF x with
  | S754_finite s m e => SF2Prim (binary_round p em s m e)
  | _ => x
  end.

(** The element of a tensor of dtype [d] nearest to [x]: binary16 has 11 bits
    of precision, binary32 has 24. *)
Definition float_cast (d : dtype) (x : float) : float :=
  match d with
  | float16 => float_round 11 16 x
  | float32 => float_round 24 128 x
  | float64 => x
  end.

(** A mantissa and exponent in the normal range of binary64: the mantissa
    is positive and its leading bit is at or above the exponent
    [emin + prec]. *)
Definition in_range (m e : Z) : Prop :=
  (0 < m /\ emin + prec <= Zdigits2 m + e)%Z.

(** A positive number of the specification of binary64. *)
Definition positive_sf (x : spec_float) : Prop :=
  match x with
  | S754_finite false _ _ | S754_infinity false => True
  | _ => False
  end.

(** Elements are held and combined as binary64 numbers; an element enters
    a narrower dtype by [float_cast]. *)
#[export] Instance float_Scalar : Scalar float := {|
  s_zero := PrimFloat.zero;
  s_add := PrimFloat.add;
  s_sub := PrimFloat.sub;
  s_mul := PrimFloat.mul;
  s_div := PrimFloat.div;
  s_abs := PrimFloat.abs;
  s_sqrt := PrimFloat.sqrt;
  s_max := float_max;
  s_of_nat := float_of_nat;
  s_pi := float_pi;
  s_math_sqrt := float_math_sqrt;
  s_cast := float_cast;
  s_is_nan := float_is_nan;
  s_is_zero := float_is_zero;
  s_is_finite := float_is_finite;
  s_ltb := PrimFloat.ltb;
  s_leb := PrimFloat.leb
|}.

(** ** Extended real elements

    The numbers IEEE arithmetic rounds: the reals with the two infinities
    and a NaN, combined exactly.  An operation gives NaN where IEEE
    arithmetic does (the difference of equal infinities, zero times an
    infinity, the quotient of two zeros or two infinities, the square root
    of a negative number); a zero has no sign and divides as [+0]. *)

Inductive xreal : Type :=
| Fin (r : R)
| PInf
| NInf
| NaN.

Definition xopp (a : xreal) : xreal :=
  match a with
  | Fin x => Fin (- x)
  | PInf => NInf
  | NInf => PInf
  | NaN => NaN
  end.

Definition xadd (a b : xreal) : xreal :=
  match a, b with
  | NaN, _ | _, NaN => NaN
  | Fin x, Fin y => Fin (x + y)
  | PInf, NInf | NInf, PInf => NaN
  | PInf, _ | _, PInf => PInf
  | NInf, _ | _, NInf => NInf
  end.

Definition xsub (a b : xreal) : xreal := xadd a (xopp b).

(** An infinity [a] times the finite [y]. *)
Definition xscale (a : xreal) (y : R) : xreal :=
  if Rlt_dec 0 y then a else if Rlt_dec y 0 then xopp a else NaN.

Definition xmul (a b : xreal) : xreal :=
  match a, b with
  | NaN, _ | _, NaN => NaN
  | Fin x, Fin y => Fin (x * y)
  | Fin x, _ => xscale b x
  | _, Fin y => xscale a y
  | PInf, PInf | NInf, NInf => PInf
  | PInf, NInf | NInf, PInf => NInf
  end.

Definition xdiv (a b : xreal) : xreal :=
  match a, b with
  | NaN, _ | _, NaN => NaN
  | Fin x, Fin y =>
      if Req_dec_T y 0 then
        if Rlt_dec 0 x then PInf else if Rlt_dec x 0 then NInf else NaN
      else Fin (x / y)
  | Fin _, _ => Fin 0
  | _, Fin y => if Rlt_dec y 0 then xopp a else a
  | _, _ => NaN
  end.

Definition xabs (a : xreal) : xreal :=
  match a with
  | Fin x => Fin (Rabs x)
  | PInf | NInf => PInf
  | NaN => NaN
  end.

Definition xsqrt (a : xreal) : xreal :=
  match a with
  | Fin x => if Rlt_dec x 0 then NaN else Fin (sqrt x)
  | PInf => PInf
  | NInf | NaN => NaN
  end.

Definition xmax (a b : xreal) : xreal :=
  match a, b with
  | NaN, _ | _, NaN => NaN
  | PInf, _ | _, PInf => PInf
  | NInf, c | c, NInf => c
  | Fin x, Fin y => Fin (Rmax x y)
  end.

Definition xmath_sqrt (a : xreal) : option xreal :=
  match a with
  | Fin x => if Rlt_dec x 0 then None else Some (Fin (sqrt x))
  | PInf => Some PInf
  | NInf => None
  | NaN => Some NaN
  end.

Definition xis_nan (a : xreal) : bool :=
  match a with
  | NaN => true
  | _ => false
  end.

Definition xis_zero (a : xreal) : bool :=
  match a with
  | Fin x => if Req_dec_T x 0 then true else false
  | _ => false
  end.

Definition xis_finite (a : xreal) : bool :=
  match a with
  | Fin _ => true
  | _ => false
  end.

Definition xleb (a b : xreal) : bool :=
  match a, b with
  | NaN, _ | _, NaN => false
  | NInf, _ | _, PInf => true
  | Fin x, Fin y => if Rle_dec x y then true else false
  | _, _ => false
  end.

Definition xltb (a b : xreal) : bool :=
  match a, b with
  | NaN, _ | _, NaN => false
  | Fin x, Fin y => if Rlt_dec x y then true else false
  | PInf, _ | _, NInf => false
  | _, _ => true
  end.

#[export] Instance xreal_Scalar : Scalar xreal := {|
  s_zero := Fin 0;
  s_add := xadd;
  s_sub := xsub;
  s_mul := xmul;
  s_div := xdiv;
  s_abs := xabs;
  s_sqrt := xsqrt;
  s_max := xmax;
  s_of_nat := fun n => Fin (INR n);
  s_pi := Fin PI;
  s_math_sqrt := xmath_sqrt;
  s_cast := fun _ x => x;
  s_is_nan := xis_nan;
  s_is_zero := xis_zero;
  s_is_finite := xis_finite;
  s_ltb := xltb;
  s_leb := xleb
|}.


(** ** Laws of IEEE arithmetic

    What the properties below use of the element arithmetic.  [IEEE] holds
    the laws of the special values and of the signs: a NaN is handed on and
    compares with nothing, the square root of a negative number is a NaN, a
    zero times a finite number is a zero, a zero added or subtracted changes
    nothing but the sign of a zero, one is neutral for the product, sums and
    products of finite numbers are numbers, the comparison is transitive,
    the maximum is monotone, absolute values, square roots and products of
    nonnegative numbers are nonnegative, a positive count converts to a
    positive number. *)
Class IEEE (T : Type) `{Scalar T} : Prop := {
  zero_is_zero : s_is_zero s_zero = true;
  zero_is_finite : forall z, s_is_zero z = true -> s_is_finite z = true;
  finite_not_nan : forall x, s_is_finite x = true -> s_is_nan x = false;
  nan_add_l : forall x y, s_is_nan x = true -> s_is_nan (s_add x y) = true;
  nan_add_r : forall x y, s_is_nan y = true -> s_is_nan (s_add x y) = true;
  nan_sub_l : forall x y, s_is_nan x = true -> s_is_nan (s_sub x y) = true;
  nan_sub_r : forall x y, s_is_nan y = true -> s_is_nan (s_sub x y) = true;
  nan_mul_l : forall x y, s_is_nan x = true -> s_is_nan (s_mul x y) = true;
  nan_mul_r : forall x y, s_is_nan y = true -> s_is_nan (s_mul x y) = true;
  nan_div_l : forall x y, s_is_nan x = true -> s_is_nan (s_div x y) = true;
  nan_abs : forall x, s_is_nan x = true -> s_is_nan (s_abs x) = true;
  nan_max_l : forall x y, s_is_nan x = true -> s_is_nan (s_max x y) = true;
  nan_max_r : forall x y, s_is_nan y = true -> s_is_nan (s_max x y) = true;
  sqrt_negative :
    forall x, s_ltb x s_zero = true -> s_is_nan (s_sqrt x) = true;
  mul_zero_l :
    forall z x, s_is_zero z = true -> s_is_finite x = true ->
                s_is_zero (s_mul z x) = true;
  mul_zero_r :
    forall x z, s_is_zero z = true -> s_is_finite x = true ->
                s_is_zero (s_mul x z) = true;
  sqrt_zero : forall z, s_is_zero z = true -> s_is_zero (s_sqrt z) = true;
  add_zero_l : forall z x, s_is_zero z = true -> same (s_add z x) x;
  add_zero_r : forall x z, s_is_zero z = true -> same (s_add x z) x;
  sub_zero_r : forall x z, s_is_zero z = true -> same (s_sub x z) x;
  mul_one_l : forall x, s_mul (s_of_nat 1) x = x;
  mul_one_r : forall x, s_mul x (s_of_nat 1) = x;
  abs_finite : forall x, s_is_finite x = true -> s_is_finite (s_abs x) = true;
  pi_finite : s_is_finite s_pi = true;
  div_zero_two :
    forall z, s_is_zero z = true -> s_is_zero (s_div z (s_of_nat 2)) = true;
  math_sqrt_zero :
    forall z, s_is_zero z = true ->
              exists f, s_math_sqrt z = Some f /\ s_is_zero f = true;
  max_same :
    forall a a' b b', same a a' -> same b b' -> same (s_max a b) (s_max a' b');
  div_zeros :
    forall z z' c, s_is_zero z = true -> s_is_zero z' = true ->
                   same (s_div z c) (s_div z' c);
  add_finite :
    forall x y, s_is_finite x = true -> s_is_nan y = false ->
                s_is_nan (s_add x y) = false;
  sub_finite :
    forall x y, s_is_finite x = true -> s_is_nan y = false ->
                s_is_nan (s_sub x y) = false;
  mul_finite :
    forall x y, s_is_finite x = true -> s_is_finite y = true ->
                s_is_nan (s_mul x y) = false;
  leb_numbers :
    forall a b, s_leb a b = true -> s_is_nan a = false /\ s_is_nan b = false;
  leb_refl : forall a, s_is_nan a = false -> s_leb a a = true;
  leb_zeros :
    forall z z', s_is_zero z = true -> s_is_zero z' = true ->
                 s_leb z z' = true;
  leb_trans :
    forall a b c, s_leb a b = true -> s_leb b c = true -> s_leb a c = true;
  max_monotone :
    forall a a' b b', s_leb a a' = true -> s_leb b b' = true ->
      s_leb (s_max a b) (s_max a' b') = true;
  abs_nonnegative :
    forall x, s_is_nan x = false -> s_leb s_zero (s_abs x) = true;
  math_sqrt_nonnegative :
    forall x f, s_math_sqrt x = Some f -> s_is_nan f = false ->
                s_leb s_zero f = true;
  mul_nonnegative :
    forall a b, s_leb s_zero a = true -> s_leb s_zero b = true ->
                s_is_nan (s_mul a b) = false ->
                s_leb s_zero (s_mul a b) = true;
  of_nat_positive : forall n, n <> 0 -> s_ltb s_zero (s_of_nat n) = true
}.

Arguments IEEE T {_}.

(** [IEEEOrder] holds the monotonicity of the correctly rounded
    operations: sums, differences, products of nonnegative numbers,
    quotients by a positive number and square roots keep the order of their
    operands wherever the results are numbers. *)
Class IEEEOrder (T : Type) `{IEEE T} : Prop := {
  add_monotone :
    forall a a' b b', s_leb a a' = true -> s_leb b b' = true ->
      s_is_nan (s_add a b) = false -> s_is_nan (s_add a' b') = false ->
      s_leb (s_add a b) (s_add a' b') = true;
  sub_monotone :
    forall a a' b b', s_leb a a' = true -> s_leb b' b = true ->
      s_is_nan (s_sub a b) = false -> s_is_nan (s_sub a' b') = false ->
      s_leb (s_sub a b) (s_sub a' b') = true;
  mul_monotone :
    forall a a' b b', s_leb s_zero a = true -> s_leb a a' = true ->
      s_leb s_zero b = true -> s_leb b b' = true ->
      s_is_nan (s_mul a b) = false -> s_is_nan (s_mul a' b') = false ->
      s_leb (s_mul a b) (s_mul a' b') = true;
  div_monotone :
    forall a a' c, s_leb a a' = true -> s_ltb s_zero c = true ->
      s_is_nan (s_div a c) = false -> s_is_nan (s_div a' c) = false ->
      s_leb (s_div a c) (s_div a' c) = true;
  sqrt_monotone :
    forall a a', s_leb s_zero a = true -> s_leb a a' = true ->
      s_leb (s_sqrt a) (s_sqrt a') = true
}.

Arguments IEEEOrder T {_ _}.

(** Boolean versions of the laws of [IEEEOrder], to evaluate them on a list
    of elements. *)
Section OrderLawsOnSamples.

Context {T : Type} `{Scalar T}.

Definition ordered_pairs (l : list T) : list (T * T) :=
  filter (fun p => s_leb (fst p) (snd p)) (list_prod l l).

Definition nonnegative_pairs (l : list T) : list (T * T) :=
  filter (fun p => s_leb s_zero (fst p)) (ordered_pairs l).

Definition numbers (x y : T) : bool :=
  negb (s_is_nan x) && negb (s_is_nan y).

(** [f a b <= f a' b'] for all [a <= a'] and [b <= b'] of the two lists of
    pairs, wherever both results are numbers. *)
Definition monotone_on (f : T -> T -> T) (l1 l2 : list (T * T)) : bool :=
  forallb (fun p =>
    forallb (fun q =>
      implb (numbers (f (fst p) (fst q)) (f (snd p) (snd q)))
            (s_leb (f (fst p) (fst q)) (f (snd p) (snd q))))
      l2)
    l1.

Definition add_monotone_on (l : list T) : bool :=
  monotone_on s_add (ordered_pairs l) (ordered_pairs l).

Definition sub_monotone_on (l : list T) : bool :=
  monotone_on (fun a b => s_sub a b) (ordered_pairs l)
    (map (fun q => (snd q, fst q)) (ordered_pairs l)).

Definition mul_monotone_on (l : list T) : bool :=
  monotone_on s_mul (nonnegative_pairs l) (nonnegative_pairs l).

Definition div_monotone_on (l : list T) : bool :=
  monotone_on s_div (ordered_pairs l)
    (map (fun c => (c, c)) (filter (s_ltb s_zero) l)).

Definition sqrt_monotone_on (l : list T) : bool :=
  forallb (fun p => s_leb (s_sqrt (fst p)) (s_sqrt (snd p)))
          (nonnegative_pairs l).

End OrderLawsOnSamples.

(** ** Running a method *)

Definition run {T S A : Type} (c : M T S A) (s : S) : result A * world T S :=
  c (mkWorld s []).

(** The score of t-batch [t] in the outcome of a [forward]: none when it
    raised. *)
Definition score_of {T : Type} `{Scalar T} (outcome : result (Tensor T))
    (t : nat) : option T :=
  match outcome with
  | Ok r => Some (nth t (data r) s_zero)
  | Raise _ => None
  end.

(** A model whose posterior is the same for every input. *)
Definition const_model {T : Type} (p : Posterior T) : Model T :=
  mkModel (fun _ => Ok p).

Definition const_sampler {T : Type} (samples : Tensor T) : MCSampler T :=
  fun _ => Ok samples.

(** ** The scores as formulas

    The formulas the scorers are meant to compute, written on one t-batch:
    the outcome vectors and the covariance matrix are read off the posterior
    tensors by their indices. *)

Section Formulas.

Context {T : Type} `{Scalar T}.

(** Element [i] of a 1-D tensor. *)
Definition get (A : Tensor T) (i : nat) : T := nth i (data A) s_zero.

(** The [i]-th vector of length [o] of a tensor whose last dimension is [o]
    (the leading dimensions flattened). *)
Definition row (o : nat) (A : Tensor T) (i : nat) : list T :=
  slice (i * o) o (data A).

(** The [t]-th matrix of a [b x o x o] tensor, as the list of its rows. *)
Definition matrix (o : nat) (A : Tensor T) (t : nat) : list (list T) :=
  map (fun j => row o A (t * o + j)) (seq 0 o).

(** The dot product of an outcome vector with the weight vector. *)
Definition scalarize (w y : list T) : T := dot y w.

(** [w^T (C w)] *)
Definition quadratic_form (w : list T) (C : list (list T)) : T :=
  dot w (map (fun r => dot r w) C).

(** The analytic score of one t-batch. *)
Definition ucb_score (maximize : bool) (w : list T) (beta : T)
    (mu : list T) (C : list (list T)) : T :=
  let m := scalarize w mu in
  let delta := s_sqrt (s_mul beta (quadratic_form w C)) in
  if maximize then s_add m delta else s_sub m delta.

(** The Monte-Carlo deviation term of one draw at one point. *)
Definition ucb_sample (factor m y : T) : T :=
  s_add m (s_mul factor (s_abs (s_sub y m))).

(** The Monte-Carlo score of t-batch [t]: [samples] is [n x b x q x o],
    [mu] is [b x q x o]. *)
Definition q_ucb_score (w : list T) (factor : T) (n b q : nat)
    (samples mu : Tensor T) (t : nat) : T :=
  let o := length w in
  s_div
    (sum (map (fun i =>
            max_list (map (fun j =>
              ucb_sample factor
                (scalarize w (row o mu (t * q + j)))
                (scalarize w (row o samples ((i * b + t) * q + j))))
              (seq 0 q)))
          (seq 0 n)))
    (s_of_nat n).

End Formulas.

(** The one-hot weight vector [e_i] of length [o]. *)
Definition one_hot {T : Type} `{Scalar T} (o i : nat) : list T :=
  map (fun j => if j =? i then s_of_nat 1 else s_zero) (seq 0 o).



(** ** Concrete inputs *)

Module Examples.

Import ScalarizedUpperConfidenceBound.

Definition f64 : TensorOptions := mkOptions float64 cpu.
Definition f32 : TensorOptions := mkOptions float32 cpu.

(** Binary64 numbers at the edges of the format: the zeros, the smallest
    subnormal number, the neighbours of 1, the largest number, the
    infinities and the NaN. *)
Definition float_samples : list float :=
  [0; -0; 1; -1; 0.1; -3; 0x1p-1074; 0x1.0000000000001p+0;
   0x1.fffffffffffffp-1; 0x1.fffffffffffffp+1023; 1e308; infinity;
   neg_infinity; nan]%float.

(** One t-batch of one design point in three dimensions, in double
    precision. *)
Definition X1 : DTensor float :=
  mkDTensor f64 (mkTensor [1; 1; 3] [0; 0; 0]%float).


(** Two outcomes with means 1 and 3, variances 4 and 1 and no covariance;
    equal weights, beta = 4 (registered in single precision), maximize. *)
Definition scenario_posterior : Posterior float :=
  mkPosterior (mkTensor [1; 1; 2] [1; 3]%float)
              (mkTensor [1; 2; 2] [4; 0; 0; 1]%float).

Definition scenario_scorer : t :=
  mk (const_model scenario_posterior)
     (mkDTensor f32 (mkTensor [] [4]%float)) [0.5; 0.5]%float true.

(** The scenario with a scalar beta of double precision. *)
Definition scenario_with_beta (beta : float) (maximize : bool) : t :=
  mk (const_model scenario_posterior)
     (mkDTensor f64 (mkTensor [] [beta])) [0.5; 0.5]%float maximize.

(** One outcome whose computed variance is negative. *)
Definition negvar_posterior : Posterior float :=
  mkPosterior (mkTensor [1; 1; 1] [5]%float) (mkTensor [1; 1; 1] [-1]%float).

Definition negvar_scorer : t :=
  mk (const_model negvar_posterior)
     (mkDTensor f64 (mkTensor [] [1]%float)) [1]%float true.

(** Two outcomes whose variances are near the largest binary64 number: the
    scalarized variance overflows. *)
Definition overflow_posterior : Posterior float :=
  mkPosterior (mkTensor [1; 1; 2] [1; 3]%float)
              (mkTensor [1; 2; 2] [1e308; 0; 0; 1e308]%float).

Definition overflow_scorer (beta : float) (maximize : bool) : t :=
  mk (const_model overflow_posterior)
     (mkDTensor f64 (mkTensor [] [beta])) [1; 1]%float maximize.

(** Two outcomes, the second with mean 0 and variance 2, scored with the
    one-hot weights of the second outcome and beta = 2. *)
Definition one_hot_posterior : Posterior float :=
  mkPosterior (mkTensor [1; 1; 2] [1; 0]%float)
              (mkTensor [1; 2; 2] [4; 1; 1; 2]%float).

Definition one_hot_scorer : t :=
  mk (const_model one_hot_posterior)
     (mkDTensor f64 (mkTensor [] [2]%float)) (one_hot 2 1) true.


(** Three outcomes against two weights. *)
Definition mismatch_posterior : Posterior float :=
  mkPosterior (mkTensor [1; 1; 3] [1; 3; 5]%float)
              (mkTensor [1; 3; 3] [4; 0; 0; 0; 1; 0; 0; 0; 1]%float).

Definition mismatch_scorer : t :=
  mk (const_model mismatch_posterior)
     (mkDTensor f64 (mkTensor [] [4]%float)) [0.5; 0.5]%float true.

(** The Monte-Carlo scorer on two t-batches of two points with two outcomes
    and three draws. *)
Definition X2 : DTensor float :=
  mkDTensor f64 (mkTensor [2; 2; 1] [0; 1; 2; 3]%float).

Definition mc_posterior : Posterior float :=
  mkPosterior (mkTensor [2; 2; 2] [1; 3; 2; 2; 0; 0; 1; 1]%float)
              (mkTensor [2; 4; 4] []).

Definition mc_samples : Tensor float :=
  mkTensor [3; 2; 2; 2]
    [1; 3; 2; 2; 0; 0; 1; 1;
     2; 3; 2; 2; 0; 0; 1; 1;
     1; 3; 2; 5; 0; 1; 1; 1]%float.

Definition mc_scorer : qScalarizedUpperConfidenceBound.t :=
  qScalarizedUpperConfidenceBound.mk (const_model mc_posterior)
    (const_sampler mc_samples)
    (mkDTensor f64 (mkTensor [] [4]%float)) [0.5; 0.5]%float.

Definition mc_mismatch_scorer : qScalarizedUpperConfidenceBound.t :=
  qScalarizedUpperConfidenceBound.mk (const_model mc_posterior)
    (const_sampler mc_samples)
    (mkDTensor f64 (mkTensor [] [4]%float)) [0.5; 0.5; 1]%float.

(** Two weights against a covariance of three outcomes (the mean has
    two). *)
Definition wide_covariance_posterior : Posterior float :=
  mkPosterior (mkTensor [1; 1; 2] [1; 3]%float)
              (mkTensor [1; 3; 3] [4; 0; 0; 0; 1; 0; 0; 0; 1]%float).

Definition wide_covariance_scorer : t :=
  mk (const_model wide_covariance_posterior)
     (mkDTensor f64 (mkTensor [] [4]%float)) [0.5; 0.5]%float true.

(** A [beta] of two elements against three t-batches. *)
Definition X5 : DTensor float :=
  mkDTensor f64 (mkTensor [3; 1; 1] [0; 1; 2]%float).

Definition three_batch_posterior : Posterior float :=
  mkPosterior (mkTensor [3; 1; 1] [1; 2; 3]%float)
              (mkTensor [3; 1; 1] [1; 1; 1]%float).

Definition two_betas_scorer : t :=
  mk (const_model three_batch_posterior)
     (mkDTensor f64 (mkTensor [2] [1; 4]%float)) [1]%float true.

(** An input with two t-batch dimensions. *)
Definition X4 : DTensor float :=
  mkDTensor f64 (mkTensor [1; 2; 1; 3] [0; 0; 0; 1; 1; 1]%float).

Definition two_batch_posterior : Posterior float :=
  mkPosterior (mkTensor [1; 2; 1; 2] [1; 3; 2; 2]%float)
              (mkTensor [1; 2; 2; 2] [4; 0; 0; 1; 4; 0; 0; 1]%float).

Definition two_batch_scorer : t :=
  mk (const_model two_batch_posterior)
     (mkDTensor f64 (mkTensor [] [4]%float)) [0.5; 0.5]%float true.

(** No outcome and no weight. *)
Definition no_outcome_posterior : Posterior float :=
  mkPosterior (mkTensor [1; 1; 0] []) (mkTensor [1; 0; 0] []).

Definition no_weights_scorer : t :=
  mk (const_model no_outcome_posterior)
     (mkDTensor f64 (mkTensor [] [2]%float)) [] true.

(** A model whose posterior raises. *)
Definition failing_scorer : t :=
  mk (mkModel (fun _ => Raise ValueError))
     (mkDTensor f64 (mkTensor [] [4]%float)) [0.5; 0.5]%float true.

(** A posterior mean that is not a number. *)
Definition nan_mean_posterior : Posterior float :=
  mkPosterior (mkTensor [1; 1; 1] [PrimFloat.nan])
              (mkTensor [1; 1; 1] [1]%float).

Definition nan_mean_scorer : t :=
  mk (const_model nan_mean_posterior)
     (mkDTensor f64 (mkTensor [] [1]%float)) [1]%float true.

(** Three outcomes per draw against two weights. *)
Definition mc_samples_3 : Tensor float :=
  mkTensor [1; 1; 1; 3] [1; 3; 5]%float.

Definition mc_scorer_3 : qScalarizedUpperConfidenceBound.t :=
  qScalarizedUpperConfidenceBound.mk (const_model mismatch_posterior)
    (const_sampler mc_samples_3)
    (mkDTensor f64 (mkTensor [] [4]%float)) [0.5; 0.5]%float.

(** One point with one outcome of mean 0.1, weight 1, and [n] draws that
    all equal [y]. *)
Definition X3 : DTensor float :=
  mkDTensor f64 (mkTensor [1; 1; 1] [0]%float).

Definition tenth_posterior : Posterior float :=
  mkPosterior (mkTensor [1; 1; 1] [0.1]%float) (mkTensor [1; 1; 1] [1]%float).

Definition draws_scorer (beta : float) (n : nat) (y : float) :
    qScalarizedUpperConfidenceBound.t :=
  qScalarizedUpperConfidenceBound.mk (const_model tenth_posterior)
    (const_sampler (mkTensor [n; 1; 1; 1] (repeat y n)))
    (mkDTensor f64 (mkTensor [] [beta])) [1]%float.









End Examples.
(** * Properties *)

Unset Implicit Arguments.

(** ** Lists indexed by position *)

Section ListFacts.

Context {A : Type}.
Implicit Types (l d w : list A).

Lemma slice_length (s n : nat) l :
  s + n <= length l -> length (slice s n l) = n.
Proof.
  intros Hl. unfold slice. rewrite length_firstn, length_skipn. lia.
Qed.

Lemma slice_all n l : length l = n -> slice 0 n l = l.
Proof.
  intros <-. unfold slice. simpl. apply firstn_all.
Qed.

Lemma slice_skipn (s n k : nat) l :
  slice s n (skipn k l) = slice (s + k) n l.
Proof.
  unfold slice. now rewrite skipn_skipn.
Qed.

Lemma seq_from (s n : nat) : seq s n = map (fun j => s + j) (seq 0 n).
Proof.
  revert s. induction n as [|n IH]; intros s; simpl; [reflexivity|].
  f_equal; [lia|].
  rewrite (IH (S s)), <- seq_shift, map_map.
  apply map_ext. intros; lia.
Qed.

Lemma nth_map_seq {B : Type} (f : nat -> B) (n i : nat) (d : B) :
  i < n -> nth i (map f (seq 0 n)) d = f i.
Proof.
  intros Hi.
  rewrite (nth_indep _ d (f 0)) by now rewrite length_map, length_seq.
  rewrite (map_nth f (seq 0 n) 0 i), seq_nth by assumption. reflexivity.
Qed.

Lemma map_nth_seq l (d : A) (n : nat) :
  length l = n -> map (fun i => nth i l d) (seq 0 n) = l.
Proof.
  intros <-. induction l as [|x l IH]; simpl; [reflexivity|].
  f_equal. rewrite <- seq_shift, map_map. exact IH.
Qed.

Lemma flat_map_seq_1 {B : Type} (f : nat -> list B) :
  flat_map f (seq 0 1) = f 0.
Proof. simpl. apply app_nil_r. Qed.

Lemma flat_map_slices (a n : nat) d :
  length d = a * n -> flat_map (fun i => slice (i * n) n d) (seq 0 a) = d.
Proof.
  revert d. induction a as [|a IH]; intros d Hd.
  - destruct d; [reflexivity|discriminate].
  - rewrite <- cons_seq, <- seq_shift. simpl flat_map.
    rewrite flat_map_concat_map, map_map, <- flat_map_concat_map.
    rewrite (flat_map_ext _ (fun i => slice (i * n) n (skipn n d))).
    + rewrite IH by (rewrite length_skipn; lia).
      unfold slice. simpl. apply firstn_skipn.
    + intros i. rewrite slice_skipn. f_equal. lia.
Qed.

Lemma flat_map_tabulate {B : Type} (f : nat -> nat -> B) (b o : nat) :
  flat_map (fun i => map (f i) (seq 0 o)) (seq 0 b)
  = map (fun k => f (k / o) (k mod o)) (seq 0 (b * o)).
Proof.
  induction b as [|b IH]; [reflexivity|].
  rewrite seq_S, flat_map_app, IH. simpl flat_map. rewrite app_nil_r.
  replace (S b * o) with (b * o + o) by lia.
  rewrite seq_app, map_app. f_equal. simpl.
  rewrite (seq_from (b * o)), map_map.
  apply map_ext_in. intros j Hj. apply in_seq in Hj.
  assert (o <> 0) by lia.
  f_equal.
  - rewrite Nat.add_comm, Nat.div_add by assumption.
    rewrite Nat.div_small by lia. reflexivity.
  - rewrite Nat.add_comm, Nat.Div0.mod_add. symmetry. apply Nat.mod_small. lia.
Qed.

Lemma flat_map_const w (s b : nat) :
  flat_map (fun _ => w) (seq s b) = concat (repeat w b).
Proof.
  revert s. induction b as [|b IH]; intros s; simpl; [reflexivity|].
  now rewrite IH.
Qed.

Lemma concat_repeat_tabulate w (b : nat) (d : A) :
  concat (repeat w b)
  = map (fun k => nth (k mod length w) w d) (seq 0 (b * length w)).
Proof.
  rewrite <- (flat_map_tabulate (fun _ j => nth j w d)).
  rewrite (map_nth_seq w d (length w) eq_refl).
  symmetry. apply flat_map_const.
Qed.

Lemma slice_map_seq {B : Type} (f : nat -> B) (s n N : nat) :
  s + n <= N ->
  slice s n (map f (seq 0 N)) = map (fun j => f (s + j)) (seq 0 n).
Proof.
  intros Hle. unfold slice.
  replace N with (s + (N - s)) by lia.
  rewrite seq_app, map_app, skipn_app, skipn_all2
    by (rewrite length_map, length_seq; lia).
  rewrite length_map, length_seq, Nat.sub_diag. simpl.
  replace (N - s) with (n + (N - s - n)) by lia.
  rewrite seq_app, map_app, firstn_app, firstn_all2
    by (rewrite length_map, length_seq; lia).
  rewrite length_map, length_seq, Nat.sub_diag. simpl. rewrite app_nil_r.
  rewrite (seq_from s), map_map. reflexivity.
Qed.

Lemma combine_map_seq {B C : Type} (f : nat -> B) (g : nat -> C) (n : nat) :
  combine (map f (seq 0 n)) (map g (seq 0 n))
  = map (fun i => (f i, g i)) (seq 0 n).
Proof.
  generalize 0. induction n as [|n IH]; intros s; simpl; [reflexivity|].
  now rewrite IH.
Qed.

End ListFacts.

Section ListFacts2.

Context {A : Type}.
Implicit Types (l d w : list A).

Lemma nth_concat_repeat w (b i k : nat) (d : A) :
  i < b -> k < length w ->
  nth (i * length w + k) (concat (repeat w b)) d = nth k w d.
Proof.
  intros Hi Hk. rewrite (concat_repeat_tabulate w b d).
  rewrite nth_map_seq by nia.
  rewrite Nat.add_comm, Nat.Div0.mod_add, Nat.mod_small by assumption.
  reflexivity.
Qed.

Lemma slice_concat_repeat w (b i : nat) (d : A) :
  i < b -> slice (i * length w) (length w) (concat (repeat w b)) = w.
Proof.
  intros Hi. rewrite (concat_repeat_tabulate w b d).
  rewrite slice_map_seq by nia.
  transitivity (map (fun k => nth k w d) (seq 0 (length w)));
    [|now apply map_nth_seq].
  apply map_ext_in. intros k Hk. apply in_seq in Hk.
  rewrite Nat.add_comm, Nat.Div0.mod_add, Nat.mod_small by lia.
  reflexivity.
Qed.

Lemma length_concat_repeat w (b : nat) :
  length (concat (repeat w b)) = b * length w.
Proof.
  induction b as [|b IH]; simpl; [reflexivity|].
  rewrite length_app, IH. reflexivity.
Qed.

Lemma length_flat_map_const {B : Type} (g : B -> list A) (k : nat)
    (l : list B) :
  (forall x, In x l -> length (g x) = k) ->
  length (flat_map g l) = length l * k.
Proof.
  induction l as [|x l IH]; intros Hg; simpl; [reflexivity|].
  rewrite length_app, Hg, IH; auto with datatypes.
Qed.

Lemma flat_map_ext_seq (g1 g2 : nat -> list A) (n : nat) :
  (forall i, i < n -> g1 i = g2 i) ->
  flat_map g1 (seq 0 n) = flat_map g2 (seq 0 n).
Proof.
  intros Hg. rewrite !flat_map_concat_map. f_equal.
  apply map_ext_in. intros i Hi. apply in_seq in Hi. apply Hg. lia.
Qed.

Lemma flat_map_singleton {B : Type} (f : B -> A) (l : list B) :
  flat_map (fun x => [f x]) l = map f l.
Proof.
  induction l as [|x l IH]; simpl; [reflexivity|]. now rewrite IH.
Qed.

End ListFacts2.

Lemma numel_app (s1 s2 : list nat) : numel (s1 ++ s2) = numel s1 * numel s2.
Proof.
  induction s1 as [|a s1 IH]; simpl; [lia|]. rewrite IH. lia.
Qed.

Lemma numel_repeat_1 (k : nat) : numel (repeat 1 k) = 1.
Proof.
  induction k as [|k IH]; simpl; [reflexivity|]. rewrite IH. reflexivity.
Qed.

Section TensorFacts.

Context {T : Type} `{Scalar T}.

Lemma bcast_same (s : list nat) (d : list T) :
  length d = numel s -> bcast s s d = d.
Proof.
  revert d. induction s as [|a s IH]; intros d Hd; simpl; [reflexivity|].
  rewrite Nat.eqb_refl.
  rewrite (flat_map_ext_seq _ (fun i => slice (i * numel s) (numel s) d) a).
  - apply flat_map_slices. simpl in Hd. exact Hd.
  - intros i Hi. apply IH.
    apply slice_length. simpl in Hd. nia.
Qed.

Lemma bcast_lead (s : list nat) (n : nat) (d : list T) :
  length d = numel s -> bcast (1 :: s) (n :: s) d = concat (repeat d n).
Proof.
  intros Hd. cbn [bcast]. destruct (Nat.eqb_spec 1 n) as [<-|Hn].
  - simpl. rewrite !app_nil_r, slice_all by assumption.
    now apply bcast_same.
  - rewrite bcast_same by assumption. reflexivity.
Qed.

Lemma bcast_length (src tgt : list nat) (d : list T) :
  expandable src tgt = true -> length d = numel src ->
  length (bcast src tgt d) = numel tgt.
Proof.
  revert tgt d. induction src as [|a src IH]; intros [|b tgt] d He Hd;
    simpl in *; try discriminate; [assumption|].
  apply andb_prop in He. destruct He as [Hab He].
  destruct (Nat.eqb_spec a b) as [<-|Hne].
  - rewrite length_flat_map_const with (k := numel tgt);
      [now rewrite length_seq|].
    intros i Hi. apply in_seq in Hi. apply IH; [assumption|].
    apply slice_length. nia.
  - simpl in Hab. apply Nat.eqb_eq in Hab. subst a.
    rewrite length_concat_repeat, IH; [reflexivity|assumption|lia].
Qed.

Lemma expandable_refl (s : list nat) : expandable s s = true.
Proof.
  induction s as [|a s IH]; simpl; [reflexivity|].
  now rewrite Nat.eqb_refl, IH.
Qed.

Lemma expand_wf (A B : Tensor T) (tgt : list nat) :
  wf_tensor A -> expand A tgt = Ok B -> shape B = tgt /\ wf_tensor B.
Proof.
  unfold expand, wf_tensor. intros HA HE.
  destruct (length (shape A) <=? length tgt); [|discriminate].
  destruct (expandable _ tgt) eqn:He; [|discriminate].
  injection HE as <-. simpl. split; [reflexivity|].
  apply bcast_length; [assumption|].
  now rewrite numel_app, numel_repeat_1, Nat.mul_1_l.
Qed.

Lemma expand_same (A : Tensor T) :
  wf_tensor A -> expand A (shape A) = Ok (mkTensor (shape A) (data A)).
Proof.
  intros HA. unfold expand.
  rewrite Nat.leb_refl, Nat.sub_diag. simpl.
  now rewrite expandable_refl, bcast_same.
Qed.

Lemma expand_lead (A : Tensor T) (n : nat) :
  wf_tensor A ->
  expand A (n :: shape A)
  = Ok (mkTensor (n :: shape A) (concat (repeat (data A) n))).
Proof.
  intros HA. unfold expand.
  replace (length (shape A) <=? length (n :: shape A)) with true
    by (symmetry; apply Nat.leb_le; cbn [length]; lia).
  replace (length (n :: shape A) - length (shape A)) with 1
    by (cbn [length]; lia).
  change (repeat 1 1 ++ shape A) with (1 :: shape A).
  replace (expandable (1 :: shape A) (n :: shape A)) with true.
  - now rewrite bcast_lead.
  - simpl. now rewrite expandable_refl, orb_true_r.
Qed.

Lemma broadcast_aligned_refl (s : list nat) : broadcast_aligned s s = Some s.
Proof.
  induction s as [|a s IH]; simpl; [reflexivity|].
  now rewrite IH, Nat.eqb_refl.
Qed.

Lemma broadcast_shapes_same (s : list nat) : broadcast_shapes s s = Some s.
Proof.
  unfold broadcast_shapes. rewrite Nat.max_id, Nat.sub_diag. simpl.
  apply broadcast_aligned_refl.
Qed.

Lemma broadcast_shapes_lead_l (n : nat) (s : list nat) :
  broadcast_shapes (n :: s) s = Some (n :: s).
Proof.
  unfold broadcast_shapes.
  replace (Nat.max (length (n :: s)) (length s)) with (S (length s))
    by (cbn [length]; lia).
  replace (S (length s) - length (n :: s)) with 0 by (cbn [length]; lia).
  replace (S (length s) - length s) with 1 by lia.
  simpl. rewrite broadcast_aligned_refl.
  destruct (n =? 1); reflexivity.
Qed.

Lemma broadcast_shapes_lead_r (n : nat) (s : list nat) :
  broadcast_shapes s (n :: s) = Some (n :: s).
Proof.
  unfold broadcast_shapes.
  replace (Nat.max (length s) (length (n :: s))) with (S (length s))
    by (cbn [length]; lia).
  replace (S (length s) - length (n :: s)) with 0 by (cbn [length]; lia).
  replace (S (length s) - length s) with 1 by lia.
  cbn [repeat app broadcast_aligned]. rewrite broadcast_aligned_refl.
  destruct (Nat.eqb_spec 1 n) as [<-|Hn]; reflexivity.
Qed.

Lemma binop_same_shape (f : T -> T -> T) (A B : Tensor T) :
  wf_tensor A -> wf_tensor B -> shape B = shape A ->
  binop f A B
  = Ok (mkTensor (shape A)
          (map (fun p => f (fst p) (snd p)) (combine (data A) (data B)))).
Proof.
  intros HA HB HS. unfold binop.
  rewrite HS, broadcast_shapes_same, expand_same by assumption.
  rewrite <- HS, expand_same by assumption. reflexivity.
Qed.

Lemma binop_lead_l (f : T -> T -> T) (A B : Tensor T) (n : nat) :
  wf_tensor A -> wf_tensor B -> shape A = n :: shape B ->
  binop f A B
  = Ok (mkTensor (shape A)
          (map (fun p => f (fst p) (snd p))
               (combine (data A) (concat (repeat (data B) n))))).
Proof.
  intros HA HB HS. unfold binop.
  rewrite HS at 1. rewrite broadcast_shapes_lead_l, <- HS.
  rewrite expand_same by assumption. simpl.
  rewrite HS, expand_lead by assumption. reflexivity.
Qed.

Lemma binop_lead_r (f : T -> T -> T) (A B : Tensor T) (n : nat) :
  wf_tensor A -> wf_tensor B -> shape B = n :: shape A ->
  binop f A B
  = Ok (mkTensor (shape B)
          (map (fun p => f (fst p) (snd p))
               (combine (concat (repeat (data A) n)) (data B)))).
Proof.
  intros HA HB HS. unfold binop.
  rewrite HS at 1. rewrite broadcast_shapes_lead_r.
  rewrite expand_lead by assumption. simpl.
  rewrite <- HS, expand_same by assumption. reflexivity.
Qed.

End TensorFacts.

(** ** The tensor pipeline of the analytic scorer *)

Section PipelineFacts.

Context {T : Type} `{Scalar T}.

Lemma matmul_rows (A : Tensor T) (w : list T) (s : list nat) (o : nat) :
  shape A = s ++ [o] -> length w = o ->
  matmul A w
  = Ok (mkTensor s (map (fun i => scalarize w (row o A i)) (seq 0 (numel s)))).
Proof.
  intros HS Hw. unfold matmul. rewrite HS, rev_app_distr. simpl.
  rewrite Hw, Nat.eqb_refl, rev_involutive. reflexivity.
Qed.

Lemma squeeze_m2_q1 (A : Tensor T) (b o : nat) :
  shape A = [b; 1; o] -> squeeze_m2 A = Ok (mkTensor [b; o] (data A)).
Proof.
  intros HS. unfold squeeze_m2. rewrite HS. reflexivity.
Qed.

(** [weights.view(1, -1, 1).expand(batch_shape + weights.shape[1:])] *)
Lemma expand_weights (w : list T) (b : nat) :
  rbind (view_1_m1_1 w) (fun W => expand W ([b] ++ tl (shape W)))
  = Ok (mkTensor [b; length w; 1] (concat (repeat w b))).
Proof.
  unfold view_1_m1_1. cbn [rbind shape tl app].
  unfold expand. cbn [shape length Nat.leb Nat.sub repeat app expandable].
  rewrite !Nat.eqb_refl, ?orb_true_r. cbn [orb andb data].
  rewrite (bcast_lead [length w; 1]) by (simpl; lia).
  reflexivity.
Qed.

Lemma permute_weights (w : list T) (b : nat) :
  permute_0_2_1 (mkTensor [b; length w; 1] (concat (repeat w b)))
  = Ok (mkTensor [b; 1; length w] (concat (repeat w b))).
Proof.
  unfold permute_0_2_1. cbn [shape data]. do 2 f_equal.
  transitivity (flat_map (fun _ : nat => w) (seq 0 b));
    [|apply flat_map_const].
  apply flat_map_ext_seq. intros i Hi.
  rewrite flat_map_seq_1.
  transitivity (map (fun j => nth j w s_zero) (seq 0 (length w)));
    [|now apply map_nth_seq].
  apply map_ext_in. intros j Hj. apply in_seq in Hj.
  rewrite Nat.mul_1_r, Nat.add_0_r. apply nth_concat_repeat; lia.
Qed.

(** [torch.bmm(covs, weights)]: the covariance rows against the weights. *)
Lemma bmm_covs_weights (C : Tensor T) (w : list T) (b : nat) :
  shape C = [b; length w; length w] ->
  bmm C (mkTensor [b; length w; 1] (concat (repeat w b)))
  = Ok (mkTensor [b; length w; 1]
          (map (fun k => dot (row (length w) C k) w) (seq 0 (b * length w)))).
Proof.
  intros HS. unfold bmm. rewrite HS. cbn [shape data].
  rewrite !Nat.eqb_refl. cbn [andb]. do 2 f_equal.
  transitivity
    (flat_map
       (fun i => map (fun j => dot (row (length w) C (i * length w + j)) w)
                     (seq 0 (length w)))
       (seq 0 b)).
  2:{ rewrite (flat_map_tabulate
                 (fun i j => dot (row (length w) C (i * length w + j)) w)).
      apply map_ext. intros k. do 2 f_equal.
      pose proof (Nat.div_mod_eq k (length w)). lia. }
  - apply flat_map_ext_seq. intros i Hi.
    rewrite <- flat_map_singleton.
    apply flat_map_ext_seq. intros j Hj. cbn [seq map].
    do 2 f_equal.
    transitivity (map (fun l => nth l w s_zero) (seq 0 (length w)));
      [|now apply map_nth_seq].
    apply map_ext_in. intros l Hl. apply in_seq in Hl.
    rewrite Nat.mul_1_r, Nat.add_0_r. apply nth_concat_repeat; lia.
Qed.

(** [torch.bmm(weights_transpose, inner)]: one quadratic form per t-batch. *)
Lemma bmm_weights_inner (w : list T) (b : nat) (G : nat -> T) :
  bmm (mkTensor [b; 1; length w] (concat (repeat w b)))
      (mkTensor [b; length w; 1] (map G (seq 0 (b * length w))))
  = Ok (mkTensor [b; 1; 1]
          (map (fun t => dot w (map (fun l => G (t * length w + l))
                                    (seq 0 (length w))))
               (seq 0 b))).
Proof.
  unfold bmm. cbn [shape data]. rewrite !Nat.eqb_refl. cbn [andb].
  do 2 f_equal.
  transitivity
    (flat_map (fun t => [dot w (map (fun l => G (t * length w + l))
                                    (seq 0 (length w)))])
              (seq 0 b)); [|apply flat_map_singleton].
  apply flat_map_ext_seq. intros i Hi.
  cbn [seq flat_map map app]. f_equal. f_equal.
  - rewrite Nat.mul_1_r, Nat.add_0_r.
    now apply slice_concat_repeat with (d := s_zero).
  - apply map_ext_in. intros l Hl. apply in_seq in Hl.
    rewrite Nat.mul_1_r, Nat.add_0_r. apply nth_map_seq. nia.
Qed.

Lemma quadratic_form_matrix (w : list T) (C : Tensor T) (t : nat) :
  dot w (map (fun l => dot (row (length w) C (t * length w + l)) w)
             (seq 0 (length w)))
  = quadratic_form w (matrix (length w) C t).
Proof.
  unfold quadratic_form, matrix. now rewrite map_map.
Qed.

End PipelineFacts.

Section AnalyticRun.

Context {T : Type} `{Scalar T} {ns : Namespace}.

Import ScalarizedUpperConfidenceBound.

(** The outcome of the analytic [forward] where [torch] is bound, on
    well-shaped inputs: [X] is [b x q x d], the posterior mean [b x 1 x o],
    the covariance [b x o x o], and the converted beta expands to [b]
    entries. *)
Lemma forward_run (s : t) (X : DTensor T) (p : Posterior T)
    (bb : Tensor T) (b q d : nat) :
  binds_torch = true ->
  shape (value X) = [b; q; d] ->
  posterior (model s) X = Ok p ->
  shape (mean p) = [b; 1; length (weights s)] ->
  shape (covariance_matrix p) = [b; length (weights s); length (weights s)] ->
  wf_tensor (value (to (beta s) X)) ->
  expand (value (to (beta s) X)) [b] = Ok bb ->
  run (forward X) s
  = (Ok (mkTensor [b]
           (map (fun t =>
                   ucb_score (maximize s) (weights s) (get bb t)
                     (row (length (weights s)) (mean p) t)
                     (matrix (length (weights s)) (covariance_matrix p) t))
                (seq 0 b))),
     mkWorld (set_beta s (to (beta s) X)) [call_posterior X]).
Proof.
  intros Hns HX Hp Hmu Hcov Hbeta Hbb.
  destruct (expand_wf _ _ _ Hbeta Hbb) as [Hbs Hbwf].
  unfold run, forward, bind, get_self, set_self, log_call, lift.
  cbn [self calls app set_beta model beta weights maximize].
  rewrite Hp, HX, Hns. cbn [lookup].
  cbn [shape_but_last2 length Nat.sub firstn].
  rewrite (squeeze_m2_q1 _ _ _ Hmu).
  rewrite matmul_rows with (s := [b]) (o := length (weights s)) by reflexivity.
  pose proof (expand_weights (weights s) b) as HW. unfold rbind in HW.
  destruct (view_1_m1_1 (weights s)) as [W|e]; [|discriminate].
  rewrite HW, permute_weights, (bmm_covs_weights _ _ _ Hcov), bmm_weights_inner.
  unfold view. cbn [shape numel fold_right data].
  replace (b * 1 =? b * (1 * (1 * 1))) with true
    by (symmetry; apply Nat.eqb_eq; lia).
  unfold expand_as. cbn [shape numel fold_right]. rewrite Nat.mul_1_r, Hbb.
  assert (Hlen : length (data bb) = b).
  { unfold wf_tensor in Hbwf. rewrite Hbwf, Hbs. simpl. lia. }
  assert (Hdb : data bb = map (get bb) (seq 0 b)).
  { symmetry. now apply map_nth_seq. }
  unfold tmul. rewrite binop_same_shape;
    [|assumption|unfold wf_tensor; simpl; rewrite length_map, length_seq; lia
     |now rewrite Hbs].
  cbn [data]. unfold tadd, tsub, tsqrt, tmap. cbn [shape data].
  rewrite Hbs, Hdb, combine_map_seq, !map_map.
  assert (Hwf1 : forall f : nat -> T,
             wf_tensor (mkTensor [b] (map f (seq 0 b)))).
  { intros f. unfold wf_tensor. simpl. rewrite length_map, length_seq. lia. }
  destruct (maximize s) eqn:Hmax;
    rewrite binop_same_shape by (try apply Hwf1; reflexivity);
    cbn [shape data]; rewrite combine_map_seq, map_map;
    do 3 f_equal; apply map_ext; intros t0; cbn [fst snd];
    unfold ucb_score; rewrite quadratic_form_matrix; reflexivity.
Qed.

(** The score of one t-batch where [torch] is bound. *)
Lemma forward_score (s : t) (X : DTensor T) (p : Posterior T)
    (bb : Tensor T) (b q d t0 : nat) :
  binds_torch = true ->
  shape (value X) = [b; q; d] ->
  posterior (model s) X = Ok p ->
  shape (mean p) = [b; 1; length (weights s)] ->
  shape (covariance_matrix p) = [b; length (weights s); length (weights s)] ->
  wf_tensor (value (to (beta s) X)) ->
  expand (value (to (beta s) X)) [b] = Ok bb ->
  t0 < b ->
  exists r,
    fst (run (forward X) s) = Ok r /\ shape r = [b] /\
    get r t0
    = ucb_score (maximize s) (weights s) (get bb t0)
        (row (length (weights s)) (mean p) t0)
        (matrix (length (weights s)) (covariance_matrix p) t0).
Proof.
  intros Hns HX Hp Hmu Hcov Hbeta Hbb Ht.
  rewrite (forward_run s X p bb b q d) by assumption.
  eexists. split; [reflexivity|]. split; [reflexivity|].
  unfold get at 1. cbn [data]. now rewrite nth_map_seq.
Qed.

End AnalyticRun.

(** ** The tensor pipeline of the Monte-Carlo scorer *)

Section MCRun.

Context {T : Type} `{Scalar T} {ns : Namespace}.

Import qScalarizedUpperConfidenceBound.

Lemma index_bound (n b i t0 : nat) : i < n -> t0 < b -> i * b + t0 < n * b.
Proof.
  intros Hi Ht. apply Nat.lt_le_trans with (S i * b); [simpl; lia|].
  apply Nat.mul_le_mono_r. lia.
Qed.

Lemma wf_map_seq (s : list nat) (f : nat -> T) :
  wf_tensor (mkTensor s (map f (seq 0 (numel s)))).
Proof.
  unfold wf_tensor. simpl. now rewrite length_map, length_seq.
Qed.

(** The deviation term of every draw at every point, from the scalarized
    samples ([n x b x q]) and the scalarized mean ([b x q]). *)
Lemma ucb_samples_data (f g : nat -> T) (factor : T) (n m : nat) :
  map (fun p => s_add (fst p) (snd p))
      (combine (concat (repeat (map g (seq 0 m)) n))
         (map (s_mul factor)
            (map s_abs
               (map (fun p => s_sub (fst p) (snd p))
                  (combine (map f (seq 0 (n * m)))
                           (concat (repeat (map g (seq 0 m)) n)))))))
  = map (fun k => ucb_sample factor (g (k mod m)) (f k)) (seq 0 (n * m)).
Proof.
  rewrite (concat_repeat_tabulate _ n s_zero), length_map, length_seq.
  rewrite combine_map_seq, !map_map, combine_map_seq, map_map.
  apply map_ext_in. intros k Hk. apply in_seq in Hk. cbn [fst snd].
  assert (Hm : m <> 0) by (intros ->; lia).
  rewrite nth_map_seq by (apply Nat.mod_upper_bound; assumption).
  reflexivity.
Qed.

Lemma forward_mc_run (s : t) (X : DTensor T) (p : Posterior T)
    (Y : Tensor T) (x factor : T) (n b q : nat) :
  binds_math = true ->
  posterior (model s) X = Ok p ->
  sampler s p = Ok Y ->
  shape Y = [n; b; q; length (weights s)] ->
  shape (mean p) = [b; q; length (weights s)] ->
  q <> 0 ->
  data (value (beta s)) = [x] ->
  s_math_sqrt (s_div (s_mul x s_pi) (s_of_nat 2)) = Some factor ->
  run (forward X) s
  = (Ok (mkTensor [b]
           (map (q_ucb_score (weights s) factor n b q Y (mean p)) (seq 0 b))),
     mkWorld s [call_posterior X; call_sampler p]).
Proof.
  intros Hns Hp HS HsS Hsmu Hq Hbeta Hsqrt.
  unfold run, forward, bind, get_self, log_call, lift.
  cbn [self calls app].
  rewrite Hp, HS.
  rewrite matmul_rows with (s := [n; b; q]) (o := length (weights s))
    by (assumption || reflexivity).
  rewrite matmul_rows with (s := [b; q]) (o := length (weights s))
    by (assumption || reflexivity).
  rewrite Hns. cbn [lookup].
  unfold item, tmap. cbn [data]. rewrite Hbeta. cbn [map].
  unfold math_sqrt. rewrite Hsqrt.
  unfold tsub. rewrite binop_lead_l with (n := n)
    by (try apply wf_map_seq; reflexivity).
  unfold tadd, tabs, tmap. cbn [shape data].
  rewrite binop_lead_r with (n := n);
    [|apply wf_map_seq
     |unfold wf_tensor; cbn [shape data];
      rewrite !length_map, length_combine, length_map, length_seq,
        length_concat_repeat, length_map, length_seq; simpl; lia
     |reflexivity].
  cbn [shape data].
  replace (numel [n; b; q]) with (n * numel [b; q]) by reflexivity.
  rewrite ucb_samples_data.
  unfold max_dim_last. cbn [shape rev app].
  destruct (Nat.eqb_spec q 0) as [|_]; [contradiction|].
  unfold mean_dim0. cbn [shape data]. do 3 f_equal.
  replace (numel [b]) with b by (simpl; lia).
  replace (numel [b; q]) with (b * q) by (simpl; lia).
  replace (numel [n; b]) with (n * b) by (simpl; lia).
  apply map_ext_in. intros t0 Ht. apply in_seq in Ht.
  unfold q_ucb_score. do 2 f_equal.
  apply map_ext_in. intros i Hi. apply in_seq in Hi.
  assert (Hit : i * b + t0 < n * b) by (apply index_bound; lia).
  rewrite nth_map_seq by assumption.
  rewrite slice_map_seq
    by (rewrite Nat.mul_assoc;
        replace ((i * b + t0) * q + q) with (S (i * b + t0) * q)
          by (simpl; lia);
        apply Nat.mul_le_mono_r; lia).
  f_equal.
  apply map_ext_in. intros j Hj. apply in_seq in Hj.
  do 3 f_equal.
  replace ((i * b + t0) * q + j) with (t0 * q + j + i * (b * q)) by lia.
  rewrite Nat.Div0.mod_add. apply Nat.mod_small. apply index_bound; lia.
Qed.

(** The score of one t-batch where [math] is bound. *)
Lemma forward_mc_score (s : t) (X : DTensor T) (p : Posterior T)
    (Y : Tensor T) (x factor : T) (n b q t0 : nat) :
  binds_math = true ->
  posterior (model s) X = Ok p ->
  sampler s p = Ok Y ->
  shape Y = [n; b; q; length (weights s)] ->
  shape (mean p) = [b; q; length (weights s)] ->
  q <> 0 ->
  data (value (beta s)) = [x] ->
  s_math_sqrt (s_div (s_mul x s_pi) (s_of_nat 2)) = Some factor ->
  t0 < b ->
  exists r,
    fst (run (forward X) s) = Ok r /\ shape r = [b] /\
    get r t0 = q_ucb_score (weights s) factor n b q Y (mean p) t0.
Proof.
  intros Hns Hp HY HsY Hmu Hq Hbeta Hsqrt Ht.
  rewrite (forward_mc_run s X p Y x factor n b q) by assumption.
  eexists. split; [reflexivity|]. split; [reflexivity|].
  unfold get. cbn [data]. now rewrite nth_map_seq.
Qed.

End MCRun.

(** ** What a method changes of its instance *)

Section Frame.

Context {T S : Type}.

Lemma keeps_self_bind {A B : Type} (c : M T S A) (k : A -> M T S B) :
  keeps_self c -> (forall a, keeps_self (k a)) -> keeps_self (bind c k).
Proof.
  intros Hc Hk w. unfold bind. specialize (Hc w).
  destruct (c w) as [[a|e] w']; simpl in *.
  - now rewrite Hk.
  - assumption.
Qed.

Lemma keeps_self_lift {A : Type} (r : result A) :
  keeps_self (lift (T:=T) (S:=S) r).
Proof. intros w. reflexivity. Qed.

Lemma keeps_self_log_call (c : call T) : keeps_self (log_call (S:=S) c).
Proof. intros w. reflexivity. Qed.

Lemma keeps_self_get_self : keeps_self (get_self (T:=T) (S:=S)).
Proof. intros w. reflexivity. Qed.

End Frame.

Ltac keeps_self :=
  repeat first
    [ apply keeps_self_lift
    | apply keeps_self_log_call
    | apply keeps_self_get_self
    | apply keeps_self_bind; [|intros ?]
    | match goal with |- keeps_self (if ?b then _ else _) => destruct b end
    | progress cbv zeta ].

Section AnalyticState.

Context {T : Type} `{Scalar T} {ns : Namespace}.

Import ScalarizedUpperConfidenceBound.

Lemma forward_self (X : DTensor T) (w : world T t) :
  self (snd (forward X w)) = set_beta (self w) (to (beta (self w)) X).
Proof.
  unfold forward. unfold bind at 1, get_self at 1. cbn [self].
  unfold bind at 1, set_self at 1. cbn [self calls].
  match goal with |- self (snd (?c ?w0)) = _ =>
    transitivity (self w0); [|reflexivity];
    generalize w0; change (keeps_self c) end.
  keeps_self.
Qed.

Lemma forward_depends (X : DTensor T) (s1 s2 : t) :
  model s1 = model s2 -> weights s1 = weights s2 ->
  maximize s1 = maximize s2 -> to (beta s1) X = to (beta s2) X ->
  run (forward X) s1 = run (forward X) s2.
Proof.
  intros Hm Hw Hx Hb. unfold run, forward.
  unfold bind at 1, get_self at 1. cbn [self].
  unfold bind at 1, set_self at 1. cbn [self calls].
  symmetry.
  unfold bind at 1, get_self at 1. cbn [self].
  unfold bind at 1, set_self at 1. cbn [self calls].
  replace (set_beta s2 (to (beta s2) X)) with (set_beta s1 (to (beta s1) X));
    [reflexivity|].
  unfold set_beta. now rewrite Hm, Hw, Hx, Hb.
Qed.

End AnalyticState.

(** ** Consequences of the laws of the special values *)

Section IEEEFacts.

Context {T : Type} `{IEEE T}.

Lemma same_refl (a : T) : same a a.
Proof. now left. Qed.

Lemma same_sym (a b : T) : same a b -> same b a.
Proof. intros [->|[Ha Hb]]; [now left|now right]. Qed.

Lemma same_trans (a b c : T) : same a b -> same b c -> same a c.
Proof.
  intros [->|[Ha Hb]] [<-|[Hb' Hc]]; try (now left); right; now split.
Qed.

Lemma same_zero (a b : T) :
  same a b -> s_is_zero b = true -> s_is_zero a = true.
Proof. now intros [->|[Ha _]]. Qed.

Lemma same_finite (a b : T) :
  same a b -> s_is_finite b = true -> s_is_finite a = true.
Proof. intros [->|[Ha _]] Hb; [assumption|now apply zero_is_finite]. Qed.


Lemma add_zeros (a b : T) :
  s_is_zero a = true -> s_is_zero b = true -> s_is_zero (s_add a b) = true.
Proof.
  intros Ha Hb. apply (same_zero _ a); [now apply add_zero_r|assumption].
Qed.

(** Sums, products by a finite number and square roots respect the
    equality of numbers. *)
Lemma add_same (a a' b b' : T) :
  same a a' -> same b b' -> same (s_add a b) (s_add a' b').
Proof.
  intros [->|[Ha Ha']] [->|[Hb Hb']].
  - apply same_refl.
  - apply same_trans with a'; [now apply add_zero_r|].
    apply same_sym. now apply add_zero_r.
  - apply same_trans with b'; [now apply add_zero_l|].
    apply same_sym. now apply add_zero_l.
  - right. split; now apply add_zeros.
Qed.

Lemma mul_same_r (x a a' : T) :
  s_is_finite x = true -> same a a' -> same (s_mul x a) (s_mul x a').
Proof.
  intros Hx [->|[Ha Ha']]; [apply same_refl|].
  right. split; now apply mul_zero_r.
Qed.

Lemma sqrt_same (a a' : T) : same a a' -> same (s_sqrt a) (s_sqrt a').
Proof.
  intros [->|[Ha Ha']]; [apply same_refl|].
  right. split; now apply sqrt_zero.
Qed.

(** A row of finite numbers against a one-hot vector. *)
Lemma dot_one_hot_from (a : list T) (s n i : nat) (acc : T) :
  Forall (fun x => s_is_finite x = true) a ->
  length a = n ->
  same
    (fold_left (fun acc p => s_add acc (s_mul (fst p) (snd p)))
       (combine a (map (fun j => if j =? i then s_of_nat 1 else s_zero)
                       (seq s n)))
       acc)
    (if (s <=? i) && (i <? s + n) then s_add acc (nth (i - s) a s_zero)
     else acc).
Proof.
  intros Ha. revert s n acc. induction Ha as [|x a Hx Ha IH];
    intros s n acc Hn; simpl in Hn; subst n.
  - cbn [seq map combine fold_left length].
    destruct ((s <=? i) && (i <? s + 0)) eqn:E; [|apply same_refl].
    apply andb_prop in E. destruct E as [E1 E2].
    apply Nat.leb_le in E1. apply Nat.ltb_lt in E2. lia.
  - cbn [seq map combine fold_left fst snd].
    eapply same_trans; [apply IH; reflexivity|].
    destruct (Nat.eqb_spec s i) as [->|Hsi].
    + replace (S i <=? i) with false by (symmetry; apply Nat.leb_gt; lia).
      rewrite Nat.leb_refl.
      replace (i <? i + S (length a)) with true
        by (symmetry; apply Nat.ltb_lt; lia).
      cbn [andb]. rewrite Nat.sub_diag. cbn [nth].
      rewrite mul_one_r. apply same_refl.
    + destruct (Nat.leb_spec s i) as [Hle|Hgt].
      * replace (S s <=? i) with true by (symmetry; apply Nat.leb_le; lia).
        replace (i <? s + S (length a)) with (i <? S s + length a)
          by (f_equal; lia).
        cbn [andb].
        destruct (i <? S s + length a) eqn:Hlt.
        -- replace (i - s) with (S (i - S s)) by lia. cbn [nth].
           apply add_same; [|apply same_refl].
           apply add_zero_r. apply mul_zero_r; [apply zero_is_zero|assumption].
        -- apply add_zero_r. apply mul_zero_r; [apply zero_is_zero|assumption].
      * replace (S s <=? i) with false by (symmetry; apply Nat.leb_gt; lia).
        cbn [andb].
        apply add_zero_r. apply mul_zero_r; [apply zero_is_zero|assumption].
Qed.

Lemma dot_one_hot_r (a : list T) (o i : nat) :
  Forall (fun x => s_is_finite x = true) a -> length a = o -> i < o ->
  same (dot a (one_hot o i)) (nth i a s_zero).
Proof.
  intros Ha Hl Hi. unfold dot, one_hot.
  eapply same_trans; [now apply dot_one_hot_from|].
  cbn [Nat.leb]. replace (i <? 0 + o) with true
    by (symmetry; apply Nat.ltb_lt; lia).
  cbn [andb]. rewrite Nat.sub_0_r. apply add_zero_l, zero_is_zero.
Qed.

Lemma dot_one_hot_from_l (a : list T) (s n i : nat) (acc : T) :
  Forall (fun x => s_is_finite x = true) a ->
  length a = n ->
  same
    (fold_left (fun acc p => s_add acc (s_mul (fst p) (snd p)))
       (combine (map (fun j => if j =? i then s_of_nat 1 else s_zero)
                     (seq s n)) a)
       acc)
    (if (s <=? i) && (i <? s + n) then s_add acc (nth (i - s) a s_zero)
     else acc).
Proof.
  intros Ha. revert s n acc. induction Ha as [|x a Hx Ha IH];
    intros s n acc Hn; simpl in Hn; subst n.
  - cbn [seq map combine fold_left length].
    destruct ((s <=? i) && (i <? s + 0)) eqn:E; [|apply same_refl].
    apply andb_prop in E. destruct E as [E1 E2].
    apply Nat.leb_le in E1. apply Nat.ltb_lt in E2. lia.
  - cbn [seq map combine fold_left fst snd].
    eapply same_trans; [apply IH; reflexivity|].
    destruct (Nat.eqb_spec s i) as [->|Hsi].
    + replace (S i <=? i) with false by (symmetry; apply Nat.leb_gt; lia).
      rewrite Nat.leb_refl.
      replace (i <? i + S (length a)) with true
        by (symmetry; apply Nat.ltb_lt; lia).
      cbn [andb]. rewrite Nat.sub_diag. cbn [nth].
      rewrite mul_one_l. apply same_refl.
    + destruct (Nat.leb_spec s i) as [Hle|Hgt].
      * replace (S s <=? i) with true by (symmetry; apply Nat.leb_le; lia).
        replace (i <? s + S (length a)) with (i <? S s + length a)
          by (f_equal; lia).
        cbn [andb].
        destruct (i <? S s + length a) eqn:Hlt.
        -- replace (i - s) with (S (i - S s)) by lia. cbn [nth].
           apply add_same; [|apply same_refl].
           apply add_zero_r. apply mul_zero_l; [apply zero_is_zero|assumption].
        -- apply add_zero_r. apply mul_zero_l; [apply zero_is_zero|assumption].
      * replace (S s <=? i) with false by (symmetry; apply Nat.leb_gt; lia).
        cbn [andb].
        apply add_zero_r. apply mul_zero_l; [apply zero_is_zero|assumption].
Qed.

Lemma dot_one_hot_l (a : list T) (o i : nat) :
  Forall (fun x => s_is_finite x = true) a -> length a = o -> i < o ->
  same (dot (one_hot o i) a) (nth i a s_zero).
Proof.
  intros Ha Hl Hi. unfold dot, one_hot.
  eapply same_trans; [now apply dot_one_hot_from_l|].
  cbn [Nat.leb]. replace (i <? 0 + o) with true
    by (symmetry; apply Nat.ltb_lt; lia).
  cbn [andb]. rewrite Nat.sub_0_r. apply add_zero_l, zero_is_zero.
Qed.

Lemma length_one_hot (o i : nat) : length (one_hot (T:=T) o i) = o.
Proof. unfold one_hot. now rewrite length_map, length_seq. Qed.

(** The quadratic form of a matrix of finite numbers at a one-hot vector is
    its diagonal entry. *)
Lemma quadratic_form_one_hot (C : list (list T)) (o i : nat) :
  length C = o ->
  Forall (fun r => length r = o /\
                   Forall (fun x => s_is_finite x = true) r) C ->
  i < o ->
  same (quadratic_form (one_hot o i) C) (nth i (nth i C []) s_zero).
Proof.
  intros HC HF Hi. unfold quadratic_form.
  assert (Hrow : forall r, In r C ->
             same (dot r (one_hot o i)) (nth i r s_zero) /\
             s_is_finite (nth i r s_zero) = true).
  { intros r Hr. rewrite Forall_forall in HF. destruct (HF r Hr) as [Hl Hf].
    split; [now apply dot_one_hot_r|].
    rewrite Forall_forall in Hf. apply Hf. apply nth_In. lia. }
  eapply same_trans.
  - apply dot_one_hot_l; [|now rewrite length_map|assumption].
    rewrite Forall_forall. intros y Hy. apply in_map_iff in Hy.
    destruct Hy as [r [<- Hr]]. destruct (Hrow r Hr) as [Hs Hf].
    now apply (same_finite _ _ Hs).
  - rewrite nth_indep with (d' := dot [] (one_hot o i))
      by (rewrite length_map; lia).
    rewrite (map_nth (fun r => dot r (one_hot o i))).
    apply Hrow. apply nth_In. lia.
Qed.

End IEEEFacts.
(** ** Binary64 satisfies the laws of the special values *)

Section Binary64.

Local Open Scope float_scope.

Lemma float_zero_spec (z : float) :
  float_is_zero z = true -> exists s, Prim2SF z = S754_zero s.
Proof.
  unfold float_is_zero. destruct (Prim2SF z) as [s| | |]; try discriminate.
  now exists s.
Qed.

Lemma float_zero_cases (z : float) :
  float_is_zero z = true -> z = 0 \/ z = -0.
Proof.
  intros Hz. destruct (float_zero_spec z Hz) as [[|] Hs]; [right|left];
    apply Prim2SF_inj; now rewrite Hs.
Qed.

(** Rounding an integer multiple of [2^52] of a binary64 mantissa gives
    the mantissa back. *)
Lemma round_times_2_52 (s : bool) (m : positive) (e : Z) :
  SpecFloat.bounded prec emax m e = true ->
  binary_round_aux prec emax s (Zpos (Pos.iter xO m 52)) (e + -52) loc_Exact
  = S754_finite s m e.
Proof.
  intros Hv. unfold SpecFloat.bounded in Hv. apply andb_prop in Hv.
  destruct Hv as [Hc He].
  unfold canonical_mantissa in Hc. apply Z.eqb_eq in Hc.
  unfold binary_round_aux.
  assert (H1 : shr_fexp prec emax (Z.pos (Pos.iter xO m 52)) (e + -52)
                 loc_Exact
               = ({| shr_m := Zpos m; shr_r := false; shr_s := false |}, e)).
  { unfold shr_fexp.
    assert (Hd : Zdigits2 (Z.pos (Pos.iter xO m 52))
                 = (Zpos (digits2_pos m) + 52)%Z).
    { cbn. rewrite !Pos2Z.inj_succ. lia. }
    rewrite Hd.
    replace (Z.pos (digits2_pos m) + 52 + (e + -52))%Z
      with (Z.pos (digits2_pos m) + e)%Z by lia.
    rewrite Hc. replace (e - (e + -52))%Z with 52%Z by lia.
    unfold shr. apply pair_equal_spec; split; [reflexivity|lia]. }
  rewrite H1. cbn [shr_m loc_of_shr_record round_nearest_even].
  assert (H2 : shr_fexp prec emax (Zpos m) e loc_Exact
               = ({| shr_m := Zpos m; shr_r := false; shr_s := false |}, e)).
  { unfold shr_fexp. cbn [Zdigits2]. rewrite Hc, Z.sub_diag. reflexivity. }
  rewrite H2. cbn [shr_m]. rewrite He. reflexivity.
Qed.

Lemma float_mul_one_r (x : float) : x * 1 = x.
Proof.
  apply Prim2SF_inj. rewrite mul_spec.
  change (Prim2SF 1) with (S754_finite false 4503599627370496 (-52)).
  pose proof (Prim2SF_valid x) as Hv.
  destruct (Prim2SF x) as [s|s| |s m e] eqn:Hx; try reflexivity.
  - now destruct s.
  - now destruct s.
  - unfold SF64mul, SFmul.
    replace (m * 4503599627370496)%positive with (Pos.iter xO m 52)
      by (rewrite Pos.mul_comm; reflexivity).
    rewrite (round_times_2_52 _ m e Hv). f_equal. now destruct s.
Qed.

Lemma float_mul_one_l (x : float) : 1 * x = x.
Proof.
  apply Prim2SF_inj. rewrite mul_spec.
  change (Prim2SF 1) with (S754_finite false 4503599627370496 (-52)).
  pose proof (Prim2SF_valid x) as Hv.
  destruct (Prim2SF x) as [s|s| |s m e] eqn:Hx; try reflexivity.
  unfold SF64mul, SFmul. cbn [xorb].
  replace (4503599627370496 * m)%positive with (Pos.iter xO m 52)
    by reflexivity.
  replace (-52 + e)%Z with (e + -52)%Z by lia.
  now rewrite (round_times_2_52 _ m e Hv).
Qed.

Lemma float_ltb_zero_l (z z' b : float) :
  float_is_zero z = true -> float_is_zero z' = true ->
  PrimFloat.ltb z b = PrimFloat.ltb z' b.
Proof.
  intros Hz Hz'. destruct (float_zero_spec z Hz) as [s Hs].
  destruct (float_zero_spec z' Hz') as [s' Hs'].
  rewrite !ltb_spec, Hs, Hs'. now destruct (Prim2SF b).
Qed.

Lemma float_ltb_zero_r (a z z' : float) :
  float_is_zero z = true -> float_is_zero z' = true ->
  PrimFloat.ltb a z = PrimFloat.ltb a z'.
Proof.
  intros Hz Hz'. destruct (float_zero_spec z Hz) as [s Hs].
  destruct (float_zero_spec z' Hz') as [s' Hs'].
  rewrite !ltb_spec, Hs, Hs'. now destruct (Prim2SF a).
Qed.

Lemma float_ltb_zeros (z z' : float) :
  float_is_zero z = true -> float_is_zero z' = true ->
  PrimFloat.ltb z z' = false.
Proof.
  intros Hz Hz'. destruct (float_zero_spec z Hz) as [s Hs].
  destruct (float_zero_spec z' Hz') as [s' Hs'].
  now rewrite ltb_spec, Hs, Hs'.
Qed.

Lemma float_max_same (a a' b b' : float) :
  same a a' -> same b b' -> same (float_max a b) (float_max a' b').
Proof.
  intros [->|[Ha Ha']] [->|[Hb Hb']].
  - now left.
  - unfold float_max. cbn in Hb, Hb'.
    destruct (float_is_nan a'); [now left|].
    replace (float_is_nan b) with false
      by (unfold float_is_nan, float_is_zero in *; now destruct (Prim2SF b)).
    replace (float_is_nan b') with false
      by (unfold float_is_nan, float_is_zero in *; now destruct (Prim2SF b')).
    rewrite (float_ltb_zero_r a' b b') by assumption.
    destruct (PrimFloat.ltb a' b'); [now right|now left].
  - unfold float_max. cbn in Ha, Ha'.
    replace (float_is_nan a) with false
      by (unfold float_is_nan, float_is_zero in *; now destruct (Prim2SF a)).
    replace (float_is_nan a') with false
      by (unfold float_is_nan, float_is_zero in *; now destruct (Prim2SF a')).
    destruct (float_is_nan b'); [now left|].
    rewrite (float_ltb_zero_l a a' b') by assumption.
    destruct (PrimFloat.ltb a' b'); [now left|now right].
  - unfold float_max. cbn in Ha, Ha', Hb, Hb'.
    replace (float_is_nan a) with false
      by (unfold float_is_nan, float_is_zero in *; now destruct (Prim2SF a)).
    replace (float_is_nan a') with false
      by (unfold float_is_nan, float_is_zero in *; now destruct (Prim2SF a')).
    replace (float_is_nan b) with false
      by (unfold float_is_nan, float_is_zero in *; now destruct (Prim2SF b)).
    replace (float_is_nan b') with false
      by (unfold float_is_nan, float_is_zero in *; now destruct (Prim2SF b')).
    rewrite !float_ltb_zeros by assumption. now right.
Qed.

End Binary64.

Section Binary64Signs.

Local Open Scope float_scope.

(** The result of a rounding has the sign it is given, or is a NaN. *)
Lemma binary_round_aux_cases (s : bool) (m e : Z) (l : location) :
  let r := binary_round_aux prec emax s m e l in
  r = S754_zero s \/ (exists m' e', r = S754_finite s m' e') \/
  r = S754_infinity s \/ r = S754_nan.
Proof.
  cbv zeta. unfold binary_round_aux.
  destruct (shr_fexp prec emax m e l) as [mrs' e'].
  destruct (shr_fexp prec emax _ e' loc_Exact) as [mrs'' e''].
  destruct (shr_m mrs'') as [|p|p]; [now left| |now right; right; right].
  destruct (e'' <=? emax - prec)%Z;
    [right; left; now exists p, e''|now right; right; left].
Qed.

Lemma shr_1_nonneg (mrs : shr_record) :
  (0 <= shr_m mrs)%Z -> (0 <= shr_m (shr_1 mrs))%Z.
Proof.
  destruct mrs as [m r s]. cbn.
  destruct m as [|[p|p|]|p]; cbn; intros; lia.
Qed.

Lemma iter_shr_1_nonneg (n : positive) (mrs : shr_record) :
  (0 <= shr_m mrs)%Z -> (0 <= shr_m (SpecFloat.iter_pos shr_1 n mrs))%Z.
Proof.
  revert mrs. induction n as [n IH|n IH|]; intros mrs Hm; cbn.
  - apply IH, IH, shr_1_nonneg, Hm.
  - apply IH, IH, Hm.
  - apply shr_1_nonneg, Hm.
Qed.

Lemma shr_fexp_nonneg (m e : Z) (l : location) :
  (0 <= m)%Z -> (0 <= shr_m (fst (shr_fexp prec emax m e l)))%Z.
Proof.
  intros Hm. unfold shr_fexp, shr.
  assert (H0 : (0 <= shr_m (shr_record_of_loc m l))%Z)
    by (destruct l as [|[| |]]; exact Hm).
  destruct (fexp prec emax (Zdigits2 m + e) - e)%Z; cbn [fst];
    [assumption|now apply iter_shr_1_nonneg|assumption].
Qed.

Lemma round_nearest_even_nonneg (m : Z) (l : location) :
  (0 <= m)%Z -> (0 <= round_nearest_even m l)%Z.
Proof.
  intros Hm. destruct l as [|[| |]]; cbn; try assumption; [|lia].
  destruct (Z.even m); lia.
Qed.

(** The rounding of a nonnegative mantissa is a number. *)
Lemma binary_round_aux_number (s : bool) (m e : Z) (l : location) :
  (0 <= m)%Z -> binary_round_aux prec emax s m e l = S754_nan -> False.
Proof.
  intros Hm. unfold binary_round_aux.
  pose proof (shr_fexp_nonneg m e l Hm) as H1.
  destruct (shr_fexp prec emax m e l) as [mrs' e']. cbn [fst] in H1.
  pose proof (shr_fexp_nonneg
                (round_nearest_even (shr_m mrs') (loc_of_shr_record mrs'))
                e' loc_Exact (round_nearest_even_nonneg _ _ H1)) as H2.
  destruct (shr_fexp prec emax _ e' loc_Exact) as [mrs'' e''].
  cbn [fst] in H2.
  destruct (shr_m mrs'') as [|p|p]; [discriminate| |lia].
  destruct (e'' <=? emax - prec)%Z; discriminate.
Qed.

Lemma binary_normalize_number (m e : Z) (sz : bool) :
  binary_normalize prec emax m e sz = S754_nan -> False.
Proof.
  unfold binary_normalize, binary_round.
  destruct m as [|p|p]; [discriminate| |];
    destruct (shl_align p e _) as [mz ez];
    apply binary_round_aux_number; lia.
Qed.

Lemma float_add_finite (x y : float) :
  float_is_finite x = true -> float_is_nan y = false ->
  float_is_nan (x + y) = false.
Proof.
  unfold float_is_finite, float_is_nan. rewrite add_spec.
  destruct (Prim2SF x) as [sx|sx| |sx mx ex]; try discriminate;
    destruct (Prim2SF y) as [sy|sy| |sy my ey]; try discriminate;
    intros _ _; try reflexivity.
  - now destruct sx, sy.
  - unfold SF64add, SFadd.
    match goal with |- match ?r with _ => _ end = _ =>
      destruct r eqn:E; try reflexivity end.
    now apply binary_normalize_number in E.
Qed.

Lemma float_sub_finite (x y : float) :
  float_is_finite x = true -> float_is_nan y = false ->
  float_is_nan (x - y) = false.
Proof.
  unfold float_is_finite, float_is_nan. rewrite sub_spec.
  destruct (Prim2SF x) as [sx|sx| |sx mx ex]; try discriminate;
    destruct (Prim2SF y) as [sy|sy| |sy my ey]; try discriminate;
    intros _ _; try reflexivity.
  - now destruct sx, sy.
  - unfold SF64sub, SFsub.
    match goal with |- match ?r with _ => _ end = _ =>
      destruct r eqn:E; try reflexivity end.
    now apply binary_normalize_number in E.
Qed.

Lemma float_mul_finite (x y : float) :
  float_is_finite x = true -> float_is_finite y = true ->
  float_is_nan (x * y) = false.
Proof.
  unfold float_is_finite, float_is_nan. rewrite mul_spec.
  destruct (Prim2SF x) as [sx|sx| |sx mx ex]; try discriminate;
    destruct (Prim2SF y) as [sy|sy| |sy my ey]; try discriminate;
    intros _ _; try reflexivity.
  unfold SF64mul, SFmul.
  match goal with |- match ?r with _ => _ end = _ =>
    destruct r eqn:E; try reflexivity end.
  apply binary_round_aux_number in E; [contradiction|lia].
Qed.

Lemma SFcompare_refl (x : spec_float) :
  x <> S754_nan -> SFcompare x x = Some Eq.
Proof.
  destruct x as [s|s| |s m e]; intros Hx; try contradiction; cbn.
  - reflexivity.
  - now destruct s.
  - rewrite Z.compare_refl, Pos.compare_cont_refl. now destruct s.
Qed.

Lemma float_leb_numbers (a b : float) :
  PrimFloat.leb a b = true -> float_is_nan a = false /\ float_is_nan b = false.
Proof.
  rewrite leb_spec. unfold float_is_nan, SFleb.
  destruct (Prim2SF a), (Prim2SF b); cbn; try discriminate; now split.
Qed.

Lemma float_leb_refl (a : float) :
  float_is_nan a = false -> PrimFloat.leb a a = true.
Proof.
  rewrite leb_spec. unfold float_is_nan, SFleb. intros Ha.
  rewrite SFcompare_refl; [reflexivity|].
  intros E. now rewrite E in Ha.
Qed.

Lemma float_leb_zeros (z z' : float) :
  float_is_zero z = true -> float_is_zero z' = true ->
  PrimFloat.leb z z' = true.
Proof.
  intros Hz Hz'. destruct (float_zero_spec z Hz) as [s Hs].
  destruct (float_zero_spec z' Hz') as [s' Hs'].
  now rewrite leb_spec, Hs, Hs'.
Qed.

Lemma SFcompare_antisym (x y : spec_float) :
  SFcompare y x = option_map CompOpp (SFcompare x y).
Proof.
  destruct x as [s|s| |s m e], y as [s'|s'| |s' m' e']; cbn;
    try reflexivity; try (now destruct s); try (now destruct s');
    try (now destruct s, s').
  change (Pos.compare_cont Eq m' m) with (Pos.compare m' m).
  change (Pos.compare_cont Eq m m') with (Pos.compare m m').
  rewrite (Z.compare_antisym e e'), (Pos.compare_antisym m m').
  destruct s, s'; try reflexivity;
    destruct (e ?= e')%Z; cbn; try reflexivity;
    destruct (m ?= m')%positive; reflexivity.
Qed.

Lemma SFleb_trans (x y z : spec_float) :
  SFleb x y = true -> SFleb y z = true -> SFleb x z = true.
Proof.
  unfold SFleb.
  destruct x as [s|s| |s m e], y as [s'|s'| |s' m' e'],
           z as [s''|s''| |s'' m'' e'']; cbn;
    try discriminate; try reflexivity;
    try (destruct s; try discriminate; try reflexivity);
    try (destruct s'; try discriminate; try reflexivity);
    try (destruct s''; try discriminate; try reflexivity).
  all: change (Pos.compare_cont Eq ?a ?b) with (Pos.compare a b).
  all: destruct (Z.compare_spec e e'); destruct (Z.compare_spec e' e'');
    destruct (Z.compare_spec e e''); try lia; cbn;
    try discriminate; try reflexivity.
  all: destruct (Pos.compare_spec m m'); destruct (Pos.compare_spec m' m'');
    destruct (Pos.compare_spec m m''); try lia; cbn;
    try discriminate; try reflexivity.
Qed.

Lemma float_leb_trans (a b c : float) :
  PrimFloat.leb a b = true -> PrimFloat.leb b c = true ->
  PrimFloat.leb a c = true.
Proof. rewrite !leb_spec. apply SFleb_trans. Qed.

Lemma float_ltb_leb (a b : float) :
  PrimFloat.ltb a b = true -> PrimFloat.leb a b = true.
Proof.
  rewrite ltb_spec, leb_spec. unfold SFltb, SFleb.
  now destruct (SFcompare (Prim2SF a) (Prim2SF b)) as [[| |]|].
Qed.

Lemma float_not_ltb_leb (a b : float) :
  float_is_nan a = false -> float_is_nan b = false ->
  PrimFloat.ltb a b = false -> PrimFloat.leb b a = true.
Proof.
  unfold float_is_nan. rewrite ltb_spec, leb_spec. unfold SFltb, SFleb.
  rewrite (SFcompare_antisym (Prim2SF a) (Prim2SF b)).
  intros Na Nb.
  destruct (SFcompare (Prim2SF a) (Prim2SF b)) as [[| |]|] eqn:E; cbn;
    try discriminate; try reflexivity.
  intros _. destruct (Prim2SF a) as [s|s| |s m e]; try discriminate;
    destruct (Prim2SF b) as [s'|s'| |s' m' e']; discriminate.
Qed.

Lemma float_max_monotone (a a' b b' : float) :
  PrimFloat.leb a a' = true -> PrimFloat.leb b b' = true ->
  PrimFloat.leb (float_max a b) (float_max a' b') = true.
Proof.
  intros Ha Hb.
  destruct (float_leb_numbers a a' Ha) as [Na Na'].
  destruct (float_leb_numbers b b' Hb) as [Nb Nb'].
  unfold float_max. rewrite Na, Na', Nb, Nb'.
  destruct (PrimFloat.ltb a b) eqn:L; destruct (PrimFloat.ltb a' b') eqn:L'.
  - assumption.
  - apply float_leb_trans with b'; [assumption|].
    now apply float_not_ltb_leb.
  - apply float_leb_trans with a'; [assumption|].
    now apply float_ltb_leb.
  - assumption.
Qed.

(** A number that is a zero or has the sign [+] is at least zero. *)
Lemma SFleb_zero_sign (x : spec_float) :
  match x with
  | S754_zero _ | S754_finite false _ _ | S754_infinity false => True
  | _ => False
  end ->
  SFleb (S754_zero false) x = true.
Proof. destruct x as [s|[|]| |[|] m e]; now cbn. Qed.

Lemma SFleb_zero_inv (x : spec_float) :
  SFleb (S754_zero false) x = true ->
  match x with
  | S754_zero _ | S754_finite false _ _ | S754_infinity false => True
  | _ => False
  end.
Proof. destruct x as [s|[|]| |[|] m e]; now cbn. Qed.

Lemma float_abs_nonnegative (x : float) :
  float_is_nan x = false -> PrimFloat.leb 0 (PrimFloat.abs x) = true.
Proof.
  unfold float_is_nan. rewrite leb_spec, abs_spec.
  change (Prim2SF 0) with (S754_zero false).
  now destruct (Prim2SF x).
Qed.

Lemma float_math_sqrt_nonnegative (x f : float) :
  float_math_sqrt x = Some f -> float_is_nan f = false ->
  PrimFloat.leb 0 f = true.
Proof.
  unfold float_math_sqrt. destruct (PrimFloat.ltb x PrimFloat.zero) eqn:Hlt;
    [discriminate|].
  intros [= <-]. unfold float_is_nan. rewrite leb_spec, sqrt_spec.
  change (Prim2SF 0) with (S754_zero false).
  rewrite ltb_spec in Hlt.
  change (Prim2SF PrimFloat.zero) with (S754_zero false) in Hlt.
  destruct (Prim2SF x) as [s|s| |s m e]; try discriminate.
  - reflexivity.
  - now destruct s.
  - destruct s; [discriminate|]. unfold SF64sqrt, SFsqrt.
    destruct (SFsqrt_core_binary prec emax (Z.pos m) e) as [[mz ez] lz].
    destruct (binary_round_aux_cases false mz ez lz)
      as [E|[[m' [e' E]]|[E|E]]]; rewrite E; try discriminate; reflexivity.
Qed.

Lemma float_mul_nonnegative (a b : float) :
  PrimFloat.leb 0 a = true -> PrimFloat.leb 0 b = true ->
  float_is_nan (a * b) = false -> PrimFloat.leb 0 (a * b) = true.
Proof.
  rewrite !leb_spec. unfold float_is_nan. rewrite mul_spec.
  change (Prim2SF 0) with (S754_zero false).
  intros Ha Hb. apply SFleb_zero_inv in Ha, Hb.
  destruct (Prim2SF a) as [sa|sa| |sa ma ea]; try contradiction;
    destruct (Prim2SF b) as [sb|sb| |sb mb eb]; try contradiction;
    try (destruct sa; try contradiction); try (destruct sb; try contradiction);
    try discriminate; try reflexivity.
  unfold SF64mul, SFmul. cbn [xorb].
  destruct (binary_round_aux_cases false (Z.pos (ma * mb)) (ea + eb)
              loc_Exact) as [E|[[m' [e' E]]|[E|E]]]; rewrite E;
    try discriminate; reflexivity.
Qed.

End Binary64Signs.

(** ** A positive count converts to a positive binary64 number *)

Section Binary64Counts.

Local Open Scope Z_scope.

Lemma digits2_pos_bounds (p : positive) :
  2 ^ (Zpos (digits2_pos p) - 1) <= Zpos p < 2 ^ Zpos (digits2_pos p).
Proof.
  induction p as [p IH|p IH|]; cbn [digits2_pos].
  - rewrite Pos2Z.inj_succ.
    replace (Z.succ (Z.pos (digits2_pos p)) - 1)
      with (Z.succ (Z.pos (digits2_pos p) - 1)) by lia.
    rewrite !Z.pow_succ_r by lia. lia.
  - rewrite Pos2Z.inj_succ.
    replace (Z.succ (Z.pos (digits2_pos p)) - 1)
      with (Z.succ (Z.pos (digits2_pos p) - 1)) by lia.
    rewrite !Z.pow_succ_r by lia. lia.
  - cbn. lia.
Qed.

Lemma digits2_lower (m : Z) (k : Z) :
  0 < m -> 2 ^ (k - 1) <= m -> k <= Zdigits2 m.
Proof.
  intros Hm Hk. destruct m as [|p|p]; try lia. cbn [Zdigits2].
  destruct (digits2_pos_bounds p) as [_ Hu].
  destruct (Z.le_gt_cases k (Z.pos (digits2_pos p))) as [|Hgt]; [assumption|].
  exfalso.
  assert (2 ^ Z.pos (digits2_pos p) <= 2 ^ (k - 1))
    by (apply Z.pow_le_mono_r; lia).
  lia.
Qed.

Lemma shr_1_div2 (mrs : shr_record) :
  0 <= shr_m mrs -> shr_m (shr_1 mrs) = shr_m mrs / 2.
Proof.
  destruct mrs as [m r s]. cbn [shr_m shr_1].
  destruct m as [|[p|p|]|p]; intros Hm; try lia; cbn [shr_m].
  - reflexivity.
  - rewrite Pos2Z.inj_xI. apply Z.div_unique with 1; lia.
  - rewrite Pos2Z.inj_xO. apply Z.div_unique with 0; lia.
  - reflexivity.
Qed.

Lemma iter_shr_1_div (n : positive) (mrs : shr_record) :
  0 <= shr_m mrs ->
  shr_m (SpecFloat.iter_pos shr_1 n mrs) = shr_m mrs / 2 ^ Zpos n.
Proof.
  revert mrs. induction n as [n IH|n IH|]; intros mrs Hm; cbn [SpecFloat.iter_pos].
  - assert (H1 : 0 <= shr_m (shr_1 mrs))
      by (rewrite shr_1_div2 by assumption; apply Z.div_pos; lia).
    assert (H2 : 0 <= shr_m (SpecFloat.iter_pos shr_1 n (shr_1 mrs)))
      by (rewrite IH by assumption; apply Z.div_pos; [assumption|apply Z.pow_pos_nonneg; lia]).
    rewrite IH, IH, shr_1_div2 by assumption.
    assert (Hp : 0 < 2 ^ Z.pos n) by (apply Z.pow_pos_nonneg; lia).
    replace (2 ^ Z.pos n~1) with (2 * 2 ^ Z.pos n * 2 ^ Z.pos n).
    + rewrite <- !Z.div_div by lia. reflexivity.
    + rewrite (Pos2Z.inj_xI n).
      replace (2 * Z.pos n + 1) with (1 + Z.pos n + Z.pos n) by lia.
      rewrite (Z.pow_add_r 2 (1 + Z.pos n) (Z.pos n)) by lia.
      rewrite (Z.pow_add_r 2 1 (Z.pos n)) by lia. reflexivity.
  - assert (H2 : 0 <= shr_m (SpecFloat.iter_pos shr_1 n mrs))
      by (rewrite IH by assumption; apply Z.div_pos; [assumption|apply Z.pow_pos_nonneg; lia]).
    rewrite IH, IH by assumption.
    assert (Hp : 0 < 2 ^ Z.pos n) by (apply Z.pow_pos_nonneg; lia).
    replace (2 ^ Z.pos n~0) with (2 ^ Z.pos n * 2 ^ Z.pos n).
    + rewrite <- !Z.div_div by lia. reflexivity.
    + rewrite (Pos2Z.inj_xO n).
      replace (2 * Z.pos n) with (Z.pos n + Z.pos n) by lia.
      rewrite (Z.pow_add_r 2 (Z.pos n) (Z.pos n)) by lia. reflexivity.
  - now apply shr_1_div2.
Qed.

Lemma shr_fexp_in_range (m e : Z) (l : location) :
  in_range m e ->
  in_range (shr_m (fst (shr_fexp prec emax m e l)))
           (snd (shr_fexp prec emax m e l)).
Proof.
  intros [Hm Hd]. unfold shr_fexp, shr.
  assert (H0 : shr_m (shr_record_of_loc m l) = m)
    by (destruct l as [|[| |]]; reflexivity).
  assert (Hf : fexp prec emax (Zdigits2 m + e) = Zdigits2 m + e - prec).
  { unfold fexp. unfold emin, prec, emax in *. lia. }
  rewrite Hf.
  destruct (Zdigits2 m + e - prec - e) as [|n|n] eqn:Hn; cbn [fst snd].
  - rewrite H0. now split.
  - rewrite iter_shr_1_div by (rewrite H0; lia). rewrite H0.
    assert (Hdm : Zdigits2 m = prec + Z.pos n) by lia.
    assert (Hlow : 2 ^ (Zdigits2 m - 1) <= m).
    { destruct m as [|p|p]; try lia. apply digits2_pos_bounds. }
    assert (Hq : 2 ^ (prec - 1) <= m / 2 ^ Z.pos n).
    { apply Z.div_le_lower_bound; [apply Z.pow_pos_nonneg; lia|].
      rewrite <- Z.pow_add_r by (unfold prec; lia).
      replace (Z.pos n + (prec - 1)) with (Zdigits2 m - 1) by lia.
      assumption. }
    assert (Hpos : 0 < m / 2 ^ Z.pos n).
    { apply Z.lt_le_trans with (2 ^ (prec - 1)); [|assumption].
      apply Z.pow_pos_nonneg; unfold prec; lia. }
    split; [assumption|].
    pose proof (digits2_lower _ prec Hpos Hq). lia.
  - rewrite H0. now split.
Qed.

Lemma round_nearest_even_in_range (m e : Z) (l : location) :
  in_range m e -> in_range (round_nearest_even m l) e.
Proof.
  intros [Hm Hd].
  assert (Hle : m <= round_nearest_even m l).
  { destruct l as [|[| |]]; cbn; try lia. destruct (Z.even m); lia. }
  split; [lia|].
  assert (Hlow : 2 ^ (Zdigits2 m - 1) <= m).
  { destruct m as [|p|p]; try lia. apply digits2_pos_bounds. }
  assert (Zdigits2 m <= Zdigits2 (round_nearest_even m l))
    by (apply digits2_lower; lia).
  lia.
Qed.

(** The rounding of a mantissa in the normal range is not a zero. *)
Lemma binary_round_aux_in_range (s : bool) (m e : Z) (l : location) :
  in_range m e ->
  (exists m' e', binary_round_aux prec emax s m e l = S754_finite s m' e') \/
  binary_round_aux prec emax s m e l = S754_infinity s.
Proof.
  intros Hr. unfold binary_round_aux.
  pose proof (shr_fexp_in_range m e l Hr) as H1.
  destruct (shr_fexp prec emax m e l) as [mrs' e']. cbn [fst snd] in H1.
  pose proof (shr_fexp_in_range _ _ loc_Exact
                (round_nearest_even_in_range _ _ (loc_of_shr_record mrs') H1))
    as H2.
  destruct (shr_fexp prec emax _ e' loc_Exact) as [mrs'' e''].
  cbn [fst snd] in H2. destruct H2 as [H2 _].
  destruct (shr_m mrs'') as [|p|p]; try lia.
  destruct (e'' <=? emax - prec); [left; now exists p, e''|now right].
Qed.

Lemma digits2_pos_iter_xO (m d : positive) :
  Zpos (digits2_pos (Pos.iter xO m d)) = Zpos (digits2_pos m) + Zpos d.
Proof.
  induction d as [|d IH] using Pos.peano_ind.
  - cbn [Pos.iter digits2_pos]. rewrite Pos2Z.inj_succ. lia.
  - rewrite Pos.iter_succ. cbn [digits2_pos].
    rewrite Pos2Z.inj_succ, IH, Pos2Z.inj_succ. lia.
Qed.

(** Aligning a mantissa keeps the position of its leading bit. *)
Lemma shl_align_digits (m : positive) (e e' : Z) :
  Zpos (digits2_pos (fst (shl_align m e e'))) + snd (shl_align m e e')
  = Zpos (digits2_pos m) + e.
Proof.
  unfold shl_align. destruct (e' - e) as [|d|d] eqn:Hd; cbn [fst snd];
    try reflexivity.
  rewrite digits2_pos_iter_xO. lia.
Qed.

Lemma shl_align_fst_digits (m : positive) (e e' : Z) :
  e' <= e ->
  Zpos (digits2_pos (fst (shl_align m e e'))) + e'
  = Zpos (digits2_pos m) + e.
Proof.
  intros Hle. unfold shl_align. destruct (e' - e) as [|d|d] eqn:Hd;
    cbn [fst]; try lia.
  rewrite digits2_pos_iter_xO. lia.
Qed.

(** Adding one to a nonnegative number gives a positive number. *)
Lemma SFadd_one_positive (x : spec_float) :
  match x with
  | S754_zero _ | S754_finite false _ _ | S754_infinity false => True
  | _ => False
  end ->
  positive_sf (SFadd prec emax x (S754_finite false 4503599627370496 (-52))).
Proof.
  destruct x as [s|[|]| |[|] m e]; try contradiction; intros _;
    try exact I.
  unfold SFadd. cbn [cond_Zopp].
  set (ez := Z.min e (-52)).
  set (a := fst (shl_align m e ez)).
  set (c := fst (shl_align 4503599627370496 (-52) ez)).
  change (Z.pos a + Z.pos c) with (Z.pos (a + c)).
  unfold binary_normalize, binary_round.
  pose proof (shl_align_digits (a + c) ez
                (fexp prec emax (Z.pos (digits2_pos (a + c)) + ez))) as Hal.
  destruct (shl_align (a + c) ez _) as [mz ez']. cbn [fst snd] in Hal.
  assert (Hc : Zpos (digits2_pos c) + ez = 1).
  { unfold c. rewrite shl_align_fst_digits by (unfold ez; lia).
    reflexivity. }
  assert (Hd : Zpos (digits2_pos c) <= Zpos (digits2_pos (a + c))).
  { apply (digits2_lower (Z.pos (a + c))); [lia|].
    destruct (digits2_pos_bounds c) as [Hl _]. lia. }
  destruct (binary_round_aux_in_range false (Z.pos mz) ez' loc_Exact)
    as [[m' [e' ->]]| ->]; try exact I.
  split; [lia|]. cbn [Zdigits2]. unfold emin, prec, emax. lia.
Qed.

Lemma float_of_nat_positive (n : nat) :
  n <> 0%nat -> positive_sf (Prim2SF (float_of_nat n)).
Proof.
  assert (H : forall k,
             match Prim2SF (float_of_nat k) with
             | S754_zero _ | S754_finite false _ _
             | S754_infinity false => True
             | _ => False
             end).
  { induction k as [|k IH]; [exact I|].
    change (float_of_nat (S k)) with (float_of_nat k + 1)%float.
    rewrite add_spec.
    change (Prim2SF 1) with (S754_finite false 4503599627370496 (-52)).
    pose proof (SFadd_one_positive _ IH) as Hp.
    unfold positive_sf in Hp. unfold SF64add.
    destruct (SFadd prec emax (Prim2SF (float_of_nat k)) _)
      as [s|[|]| |[|] m e]; try contradiction; exact I. }
  destruct n as [|k]; [contradiction|]. intros _.
  change (float_of_nat (S k)) with (float_of_nat k + 1)%float.
  rewrite add_spec.
  change (Prim2SF 1) with (S754_finite false 4503599627370496 (-52)).
  apply SFadd_one_positive, H.
Qed.

Lemma float_of_nat_ltb (n : nat) :
  n <> 0%nat -> PrimFloat.ltb 0 (float_of_nat n) = true.
Proof.
  intros Hn. pose proof (float_of_nat_positive n Hn) as Hp.
  rewrite ltb_spec. change (Prim2SF 0) with (S754_zero false).
  destruct (Prim2SF (float_of_nat n)) as [s|[|]| |[|] m e];
    try contradiction; reflexivity.
Qed.

End Binary64Counts.

#[export] Instance float_IEEE : IEEE float.
Proof.
  constructor; cbn.
  - reflexivity.
  - intros z. unfold float_is_zero, float_is_finite.
    now destruct (Prim2SF z).
  - intros x. unfold float_is_nan, float_is_finite. now destruct (Prim2SF x).
  - intros x y. unfold float_is_nan. rewrite add_spec.
    destruct (Prim2SF x); try discriminate. reflexivity.
  - intros x y. unfold float_is_nan. rewrite add_spec.
    destruct (Prim2SF y); try discriminate. now destruct (Prim2SF x).
  - intros x y. unfold float_is_nan. rewrite sub_spec.
    destruct (Prim2SF x); try discriminate. reflexivity.
  - intros x y. unfold float_is_nan. rewrite sub_spec.
    destruct (Prim2SF y); try discriminate. now destruct (Prim2SF x).
  - intros x y. unfold float_is_nan. rewrite mul_spec.
    destruct (Prim2SF x); try discriminate. reflexivity.
  - intros x y. unfold float_is_nan. rewrite mul_spec.
    destruct (Prim2SF y); try discriminate. now destruct (Prim2SF x).
  - intros x y. unfold float_is_nan. rewrite div_spec.
    destruct (Prim2SF x); try discriminate. reflexivity.
  - intros x. unfold float_is_nan. rewrite abs_spec.
    destruct (Prim2SF x); try discriminate. reflexivity.
  - intros x y Hx. unfold float_max. now rewrite Hx.
  - intros x y Hy. unfold float_max.
    destruct (float_is_nan x) eqn:Hx; [assumption|]. now rewrite Hy.
  - intros x. rewrite ltb_spec. unfold float_is_nan. rewrite sqrt_spec.
    change (Prim2SF zero) with (S754_zero false).
    destruct (Prim2SF x) as [s|s| |s m e]; try discriminate;
      destruct s; try discriminate; reflexivity.
  - intros z x. unfold float_is_zero, float_is_finite. rewrite mul_spec.
    destruct (Prim2SF z); try discriminate.
    now destruct (Prim2SF x).
  - intros x z. unfold float_is_zero, float_is_finite. rewrite mul_spec.
    destruct (Prim2SF z); try discriminate.
    now destruct (Prim2SF x).
  - intros z. unfold float_is_zero. rewrite sqrt_spec.
    now destruct (Prim2SF z).
  - intros z x Hz. destruct (float_zero_spec z Hz) as [s Hs].
    unfold same. cbn. unfold float_is_zero.
    destruct (Prim2SF x) as [s'| s' | |s' m e] eqn:Hx.
    + right. rewrite add_spec, Hs, Hx. split; [|reflexivity].
      now destruct s, s'.
    + left. apply Prim2SF_inj. now rewrite add_spec, Hs, Hx.
    + left. apply Prim2SF_inj. now rewrite add_spec, Hs, Hx.
    + left. apply Prim2SF_inj. now rewrite add_spec, Hs, Hx.
  - intros x z Hz. destruct (float_zero_spec z Hz) as [s Hs].
    unfold same. cbn. unfold float_is_zero.
    destruct (Prim2SF x) as [s'| s' | |s' m e] eqn:Hx.
    + right. rewrite add_spec, Hs, Hx. split; [|reflexivity].
      now destruct s, s'.
    + left. apply Prim2SF_inj. now rewrite add_spec, Hs, Hx.
    + left. apply Prim2SF_inj. now rewrite add_spec, Hs, Hx.
    + left. apply Prim2SF_inj. now rewrite add_spec, Hs, Hx.
  - intros x z Hz. destruct (float_zero_spec z Hz) as [s Hs].
    unfold same. cbn. unfold float_is_zero.
    destruct (Prim2SF x) as [s'| s' | |s' m e] eqn:Hx.
    + right. rewrite sub_spec, Hs, Hx. split; [|reflexivity].
      now destruct s, s'.
    + left. apply Prim2SF_inj. now rewrite sub_spec, Hs, Hx.
    + left. apply Prim2SF_inj. now rewrite sub_spec, Hs, Hx.
    + left. apply Prim2SF_inj. now rewrite sub_spec, Hs, Hx.
  - exact float_mul_one_l.
  - exact float_mul_one_r.
  - intros x. unfold float_is_finite. rewrite abs_spec.
    now destruct (Prim2SF x).
  - reflexivity.
  - intros z Hz. destruct (float_zero_spec z Hz) as [s Hs].
    unfold float_is_zero. rewrite div_spec, Hs.
    change (Prim2SF (float_of_nat 2))
      with (S754_finite false 4503599627370496 (-51)).
    reflexivity.
  - intros z Hz. unfold float_math_sqrt.
    rewrite (float_ltb_zeros z zero Hz eq_refl).
    eexists. split; [reflexivity|].
    unfold float_is_zero in *. rewrite sqrt_spec. now destruct (Prim2SF z).
  - exact float_max_same.
  - intros z z' c Hz Hz'. destruct (float_zero_spec z Hz) as [s Hs].
    destruct (float_zero_spec z' Hz') as [s' Hs'].
    unfold same. cbn. unfold float_is_zero.
    destruct (Prim2SF c) as [sc|sc| |sc m e] eqn:Hc.
    + left. apply Prim2SF_inj. now rewrite !div_spec, Hs, Hs', Hc.
    + right. now rewrite !div_spec, Hs, Hs', Hc.
    + left. apply Prim2SF_inj. now rewrite !div_spec, Hs, Hs', Hc.
    + right. now rewrite !div_spec, Hs, Hs', Hc.
  - exact float_add_finite.
  - exact float_sub_finite.
  - exact float_mul_finite.
  - exact float_leb_numbers.
  - exact float_leb_refl.
  - exact float_leb_zeros.
  - exact float_leb_trans.
  - exact float_max_monotone.
  - exact float_abs_nonnegative.
  - exact float_math_sqrt_nonnegative.
  - exact float_mul_nonnegative.
  - exact float_of_nat_ltb.
Qed.

(** The laws of [IEEEOrder] hold between all the binary64 numbers of
    [Examples.float_samples]. *)
Lemma float_order_laws_on_samples :
  add_monotone_on Examples.float_samples = true /\
  sub_monotone_on Examples.float_samples = true /\
  mul_monotone_on Examples.float_samples = true /\
  div_monotone_on Examples.float_samples = true /\
  sqrt_monotone_on Examples.float_samples = true.
Proof.
  split; [|split; [|split; [|split]]]; vm_compute; reflexivity.
Qed.
(** ** The extended reals satisfy the laws *)

Section ExtendedReals.

Local Open Scope R_scope.

Lemma xis_zero_spec (a : xreal) : xis_zero a = true -> a = Fin 0.
Proof.
  destruct a as [x| | |]; cbn; try discriminate.
  destruct (Req_dec_T x 0) as [->|]; [reflexivity|discriminate].
Qed.

Lemma xis_zero_0 : xis_zero (Fin 0) = true.
Proof. cbn. destruct (Req_dec_T 0 0); [reflexivity|contradiction]. Qed.

Lemma xsame_eq (a b : xreal) : same a b -> a = b.
Proof.
  intros [->|[Ha Hb]]; [reflexivity|].
  cbn in Ha, Hb. now rewrite (xis_zero_spec a Ha), (xis_zero_spec b Hb).
Qed.

Lemma xleb_spec (x y : R) : xleb (Fin x) (Fin y) = true <-> x <= y.
Proof. cbn. destruct (Rle_dec x y); split; intros; try discriminate; tauto. Qed.

Lemma xltb_spec (x y : R) : xltb (Fin x) (Fin y) = true <-> x < y.
Proof. cbn. destruct (Rlt_dec x y); split; intros; try discriminate; tauto. Qed.

Ltac xcases :=
  repeat match goal with
         | |- context [Rlt_dec ?a ?b] => destruct (Rlt_dec a b)
         | |- context [Rle_dec ?a ?b] => destruct (Rle_dec a b)
         | |- context [Req_dec_T ?a ?b] => destruct (Req_dec_T a b)
         | H : context [Rlt_dec ?a ?b] |- _ => destruct (Rlt_dec a b)
         | H : context [Rle_dec ?a ?b] |- _ => destruct (Rle_dec a b)
         | H : context [Req_dec_T ?a ?b] |- _ => destruct (Req_dec_T a b)
         end.

#[export] Instance xreal_IEEE : IEEE xreal.
Proof.
  constructor.
  - exact xis_zero_0.
  - intros z Hz. now rewrite (xis_zero_spec z Hz).
  - now intros [x| | |].
  - now intros [x| | |] y.
  - now intros x [y| | |]; destruct x.
  - now intros [x| | |] y.
  - intros x [y| | |]; try discriminate. now destruct x.
  - now intros [x| | |] y.
  - now intros x [y| | |]; destruct x.
  - now intros [x| | |] y.
  - now intros [x| | |].
  - now intros [x| | |] y.
  - now intros x [y| | |]; destruct x.
  - intros [x| | |]; cbn; try discriminate; try reflexivity.
    destruct (Rlt_dec x 0); [reflexivity|discriminate].
  - intros z [x| | |] Hz; try discriminate. intros _.
    rewrite (xis_zero_spec z Hz). cbn. rewrite Rmult_0_l. exact xis_zero_0.
  - intros [x| | |] z Hz; try discriminate. intros _.
    rewrite (xis_zero_spec z Hz). cbn. rewrite Rmult_0_r. exact xis_zero_0.
  - intros z Hz. rewrite (xis_zero_spec z Hz). cbn.
    destruct (Rlt_dec 0 0) as [Hlt|_]; [exfalso; lra|].
    rewrite sqrt_0. exact xis_zero_0.
  - intros z x Hz. rewrite (xis_zero_spec z Hz). left.
    destruct x as [x| | |]; cbn; try reflexivity. f_equal. lra.
  - intros x z Hz. rewrite (xis_zero_spec z Hz). left.
    destruct x as [x| | |]; cbn; try reflexivity. f_equal. lra.
  - intros x z Hz. rewrite (xis_zero_spec z Hz). left.
    destruct x as [x| | |]; cbn; try reflexivity. f_equal. lra.
  - intros [x| | |]; cbn; unfold xscale; try reflexivity.
    + f_equal. lra.
    + destruct (Rlt_dec 0 1); [reflexivity|exfalso; lra].
    + destruct (Rlt_dec 0 1); [reflexivity|exfalso; lra].
  - intros [x| | |]; cbn; unfold xscale; try reflexivity.
    + f_equal. lra.
    + destruct (Rlt_dec 0 1); [reflexivity|exfalso; lra].
    + destruct (Rlt_dec 0 1); [reflexivity|exfalso; lra].
  - now intros [x| | |].
  - reflexivity.
  - intros z Hz. rewrite (xis_zero_spec z Hz).
    cbn [s_is_zero s_div s_of_nat xreal_Scalar xdiv].
    destruct (Req_dec_T (INR 2) 0) as [E|_]; [exfalso; cbn in E; lra|].
    replace (0 / INR 2) with 0 by (cbn; lra). exact xis_zero_0.
  - intros z Hz. rewrite (xis_zero_spec z Hz). cbn.
    destruct (Rlt_dec 0 0) as [Hlt|_]; [exfalso; lra|].
    eexists. split; [reflexivity|]. rewrite sqrt_0. exact xis_zero_0.
  - intros a a' b b' Ha Hb.
    rewrite (xsame_eq _ _ Ha), (xsame_eq _ _ Hb). now left.
  - intros z z' c Hz Hz'.
    rewrite (xis_zero_spec z Hz), (xis_zero_spec z' Hz'). now left.
  - now intros [x| | |] [y| | |].
  - now intros [x| | |] [y| | |].
  - now intros [x| | |] [y| | |].
  - intros [x| | |] [y| | |]; cbn; try discriminate; now split.
  - intros [x| | |]; cbn; try discriminate; try reflexivity.
    intros _. destruct (Rle_dec x x); [reflexivity|exfalso; lra].
  - intros z z' Hz Hz'. rewrite (xis_zero_spec z Hz), (xis_zero_spec z' Hz').
    apply xleb_spec. lra.
  - intros [x| | |] [y| | |] [z| | |]; cbn;
      try discriminate; try reflexivity.
    xcases; try discriminate; try reflexivity. intros _ _. exfalso. lra.
  - intros [x| | |] [x'| | |] [y| | |] [y'| | |]; cbn;
      try discriminate; try reflexivity;
      unfold Rmax; xcases; try discriminate; try reflexivity; intros;
      exfalso; lra.
  - intros [x| | |]; cbn; try discriminate; try reflexivity.
    intros _. destruct (Rle_dec 0 (Rabs x)) as [|N]; [reflexivity|].
    exfalso. apply N, Rabs_pos.
  - intros [x| | |] f; cbn; try discriminate.
    + destruct (Rlt_dec x 0); [discriminate|]. intros [= <-] _. cbn.
      destruct (Rle_dec 0 (sqrt x)) as [|N]; [reflexivity|].
      exfalso. apply N, sqrt_pos.
    + now intros [= <-].
    + now intros [= <-].
  - intros [x| | |] [y| | |]; cbn; unfold xscale; try discriminate;
      try reflexivity; xcases; cbn; try discriminate; try reflexivity;
      intros; try (exfalso; lra).
    all: exfalso; match goal with N : ~ _ |- _ => apply N end;
      apply Rmult_le_pos; lra.
  - intros n Hn. apply xltb_spec. apply lt_0_INR. lia.
Qed.

Lemma xadd_monotone (a a' b b' : xreal) :
  xleb a a' = true -> xleb b b' = true ->
  xis_nan (xadd a b) = false -> xis_nan (xadd a' b') = false ->
  xleb (xadd a b) (xadd a' b') = true.
Proof.
  destruct a as [x| | |], a' as [x'| | |], b as [y| | |], b' as [y'| | |];
    cbn; try discriminate; try reflexivity.
  xcases; try discriminate; try reflexivity. intros. exfalso. lra.
Qed.

Lemma xopp_antitone (b b' : xreal) :
  xleb b' b = true -> xleb (xopp b) (xopp b') = true.
Proof.
  destruct b as [y| | |], b' as [y'| | |]; cbn;
    try discriminate; try reflexivity.
  xcases; try discriminate; try reflexivity. intros. exfalso. lra.
Qed.

Lemma xmul_monotone (a a' b b' : xreal) :
  xleb (Fin 0) a = true -> xleb a a' = true ->
  xleb (Fin 0) b = true -> xleb b b' = true ->
  xis_nan (xmul a b) = false -> xis_nan (xmul a' b') = false ->
  xleb (xmul a b) (xmul a' b') = true.
Proof.
  destruct a as [x| | |], a' as [x'| | |], b as [y| | |], b' as [y'| | |];
    cbn; unfold xscale; try discriminate; try reflexivity;
    xcases; cbn; try discriminate; try reflexivity; intros;
    try (exfalso; lra).
  exfalso. apply n. apply Rmult_le_compat; lra.
Qed.

Lemma xdiv_monotone (a a' c : xreal) :
  xleb a a' = true -> xltb (Fin 0) c = true ->
  xis_nan (xdiv a c) = false -> xis_nan (xdiv a' c) = false ->
  xleb (xdiv a c) (xdiv a' c) = true.
Proof.
  destruct a as [x| | |], a' as [x'| | |], c as [z| | |];
    cbn; try discriminate; try reflexivity;
    xcases; cbn; try discriminate; try reflexivity; intros;
    try (exfalso; lra).
  all: try (exfalso;
            match goal with N : ~ (_ / _ <= _ / _) |- _ => apply N end;
            unfold Rdiv; apply Rmult_le_compat_r;
            [apply Rlt_le, Rinv_0_lt_compat; lra|lra]).
  all: try (apply xleb_spec; lra).
  all: apply xleb_spec; unfold Rdiv; apply Rmult_le_compat_r;
    [apply Rlt_le, Rinv_0_lt_compat; lra|lra].
Qed.

#[export] Instance xreal_IEEEOrder : IEEEOrder xreal.
Proof.
  constructor.
  - exact xadd_monotone.
  - intros a a' b b' Ha Hb. apply xadd_monotone; [assumption|].
    now apply xopp_antitone.
  - exact xmul_monotone.
  - exact xdiv_monotone.
  - intros [x| | |] [x'| | |]; cbn; try discriminate; try reflexivity;
      xcases; cbn; try discriminate; try reflexivity; intros;
      try (exfalso; lra).
    destruct (Rle_dec (sqrt x) (sqrt x')) as [|N]; [reflexivity|].
    exfalso. apply N. now apply sqrt_le_1_alt.
Qed.

End ExtendedReals.
(** * The properties of the specification *)

(** ** Where the two methods stop in the notebook *)

Section AnalyticNotebook.

Context {T : Type} `{Scalar T}.

Import ScalarizedUpperConfidenceBound.

(** C1, as the code has it: the cell that defines the analytic scorer binds
    [Tensor] but not [torch].  On every well-shaped input (an [X] of shape
    [b x q x d], a posterior mean of shape [b x 1 x o] for [o] weights)
    [forward] reassigns [beta], evaluates the posterior, scalarizes the
    mean, builds the weight tensors and then raises [NameError] at
    [torch.bmm]: no score is returned. *)
Theorem analytic_forward_raises_NameError (s : t) (X : DTensor T)
    (p : Posterior T) (b q d : nat) :
  shape (value X) = [b; q; d] ->
  posterior (model s) X = Ok p ->
  shape (mean p) = [b; 1; length (weights s)] ->
  run (forward X) s
  = (Raise NameError,
     mkWorld (set_beta s (to (beta s) X)) [call_posterior X]).
Proof.
  intros HX Hp Hmu.
  unfold run, forward, bind, get_self, set_self, log_call, lift.
  cbn [self calls app set_beta model beta weights maximize].
  rewrite Hp, HX. cbn [shape_but_last2 length Nat.sub firstn].
  rewrite (squeeze_m2_q1 _ _ _ Hmu).
  rewrite matmul_rows with (s := [b]) (o := length (weights s))
    by reflexivity.
  pose proof (expand_weights (weights s) b) as HW. unfold rbind in HW.
  destruct (view_1_m1_1 (weights s)) as [W|e]; [|discriminate].
  rewrite HW, permute_weights. reflexivity.
Qed.

End AnalyticNotebook.

Lemma analytic_forward_raises_NameError_witness :
  run (ScalarizedUpperConfidenceBound.forward Examples.X1)
      Examples.negvar_scorer
  = (Raise NameError,
     mkWorld
       (ScalarizedUpperConfidenceBound.set_beta Examples.negvar_scorer
          (to (ScalarizedUpperConfidenceBound.beta Examples.negvar_scorer)
              Examples.X1))
       [call_posterior Examples.X1]).
Proof.
  apply (analytic_forward_raises_NameError Examples.negvar_scorer Examples.X1
           Examples.negvar_posterior 1 1 3); reflexivity.
Defined.

Section MonteCarloNotebook.

Context {T : Type} `{Scalar T}.

Import qScalarizedUpperConfidenceBound.

(** C2, as the code has it: the cell that defines the Monte-Carlo scorer
    does not bind [math].  Whenever the posterior and the sampler return
    and the outcome count is the number of weights, [forward] evaluates the
    posterior, draws the samples, scalarizes samples and mean and then
    raises [NameError] at [math.sqrt]: no score is returned. *)
Theorem mc_forward_raises_NameError (s : t) (X : DTensor T)
    (p : Posterior T) (Y : Tensor T) (sY sm : list nat) :
  posterior (model s) X = Ok p ->
  sampler s p = Ok Y ->
  shape Y = sY ++ [length (weights s)] ->
  shape (mean p) = sm ++ [length (weights s)] ->
  run (forward X) s
  = (Raise NameError, mkWorld s [call_posterior X; call_sampler p]).
Proof.
  intros Hp HY HsY Hmu.
  unfold run, forward, bind, get_self, log_call, lift.
  cbn [self calls app]. rewrite Hp, HY.
  rewrite (matmul_rows _ _ sY _ HsY eq_refl).
  rewrite (matmul_rows _ _ sm _ Hmu eq_refl).
  reflexivity.
Qed.

End MonteCarloNotebook.

Lemma mc_forward_raises_NameError_witness :
  run (qScalarizedUpperConfidenceBound.forward Examples.X2) Examples.mc_scorer
  = (Raise NameError,
     mkWorld Examples.mc_scorer
       [call_posterior Examples.X2; call_sampler Examples.mc_posterior]).
Proof.
  apply (mc_forward_raises_NameError Examples.mc_scorer Examples.X2
           Examples.mc_posterior Examples.mc_samples [3; 2; 2] [2; 2]);
    reflexivity.
Defined.

(** C9, as the code has it: on the scenario (means 1 and 3, variances 4 and
    1, no covariance, weights 1/2 and 1/2, beta = 4, maximizing) the call
    raises [NameError] at [torch.bmm].  With [torch] imported the scalarized
    mean is 2, the scalarized variance 1.25, [beta] times it 5, and the
    binary64 score is [2 + sqrt 5] = 4.2360679774997898, within 1e-9 of
    4.236067977. *)
Theorem scenario_score :
  run (ScalarizedUpperConfidenceBound.forward Examples.X1)
      Examples.scenario_scorer
  = (Raise NameError,
     mkWorld (Examples.scenario_with_beta 4 true)
             [call_posterior Examples.X1]) /\
  scalarize [0.5; 0.5]%float (row 2 (mean Examples.scenario_posterior) 0)
  = 2%float /\
  quadratic_form [0.5; 0.5]%float
    (matrix 2 (covariance_matrix Examples.scenario_posterior) 0)
  = 1.25%float /\
  PrimFloat.mul 4 1.25 = 5%float /\
  fst (run (ScalarizedUpperConfidenceBound.forward (ns := with_imports)
              Examples.X1)
           Examples.scenario_scorer)
  = Ok (mkTensor [1] [PrimFloat.add 2 (PrimFloat.sqrt 5)]) /\
  PrimFloat.add 2 (PrimFloat.sqrt 5) = 4.2360679774997898%float /\
  PrimFloat.ltb
    (PrimFloat.abs
       (PrimFloat.sub (PrimFloat.add 2 (PrimFloat.sqrt 5)) 4.236067977))
    1e-9 = true.
Proof. repeat split; vm_compute; reflexivity. Qed.

Section OrderOfFailure.

Context {T : Type} `{Scalar T}.

Lemma matmul_mismatch (A : Tensor T) (w : list T) (s : list nat) (o : nat) :
  shape A = s ++ [o] -> o <> length w -> matmul A w = Raise RuntimeError.
Proof.
  intros HS Ho. unfold matmul. rewrite HS, rev_app_distr. simpl.
  destruct (Nat.eqb_spec o (length w)); [contradiction|reflexivity].
Qed.

Lemma squeeze_m2_last (A : Tensor T) (s : list nat) (k o : nat) :
  shape A = s ++ [k; o] ->
  exists A', squeeze_m2 A = Ok A' /\ exists s', shape A' = s' ++ [o].
Proof.
  intros HS. unfold squeeze_m2. rewrite HS, rev_app_distr. simpl.
  destruct (k =? 1).
  - eexists. split; [reflexivity|]. exists s. simpl.
    now rewrite rev_involutive.
  - eexists. split; [reflexivity|]. exists (s ++ [k]).
    now rewrite HS, <- app_assoc.
Qed.

(** C4, as the code has it: when the outcome count [o] differs from the
    number of weights, each scorer raises a [RuntimeError], and it does so at
    its first product with the weights: the analytic scorer after it has
    reassigned [beta] and evaluated the posterior, the Monte-Carlo scorer
    after it has evaluated the posterior and drawn the samples. *)
Theorem mismatch_raises_after_posterior
    (sa : ScalarizedUpperConfidenceBound.t)
    (sq : qScalarizedUpperConfidenceBound.t)
    (X : DTensor T) (pa pq : Posterior T) (Y : Tensor T)
    (sh shY : list nat) (k o : nat) :
  posterior (ScalarizedUpperConfidenceBound.model sa) X = Ok pa ->
  shape (mean pa) = sh ++ [k; o] ->
  o <> length (ScalarizedUpperConfidenceBound.weights sa) ->
  posterior (qScalarizedUpperConfidenceBound.model sq) X = Ok pq ->
  qScalarizedUpperConfidenceBound.sampler sq pq = Ok Y ->
  shape Y = shY ++ [o] ->
  o <> length (qScalarizedUpperConfidenceBound.weights sq) ->
  run (ScalarizedUpperConfidenceBound.forward X) sa
  = (Raise RuntimeError,
     mkWorld (ScalarizedUpperConfidenceBound.set_beta sa
                (to (ScalarizedUpperConfidenceBound.beta sa) X))
             [call_posterior X]) /\
  run (qScalarizedUpperConfidenceBound.forward X) sq
  = (Raise RuntimeError, mkWorld sq [call_posterior X; call_sampler pq]).
Proof.
  intros Hpa Hsa Hoa Hpq HY HsY Hoq. split.
  - unfold run, ScalarizedUpperConfidenceBound.forward, bind, get_self,
      set_self, log_call, lift.
    cbn [self calls app ScalarizedUpperConfidenceBound.set_beta
         ScalarizedUpperConfidenceBound.model
         ScalarizedUpperConfidenceBound.weights].
    rewrite Hpa.
    destruct (squeeze_m2_last _ _ _ _ Hsa) as [A' [-> [s' HA']]].
    now rewrite (matmul_mismatch _ _ _ _ HA' Hoa).
  - unfold run, qScalarizedUpperConfidenceBound.forward, bind, get_self,
      log_call, lift.
    cbn [self calls app]. rewrite Hpq, HY.
    now rewrite (matmul_mismatch _ _ _ _ HsY Hoq).
Qed.

End OrderOfFailure.

(** C4 fails as stated: with three outcomes against two weights the analytic
    scorer raises only after [model.posterior] has been called, and the
    Monte-Carlo scorer (two outcomes against three weights) only after the
    posterior and the sampler have been called. *)
Lemma mismatch_fails_late :
  run (ScalarizedUpperConfidenceBound.forward Examples.X1)
      Examples.mismatch_scorer
  = (Raise RuntimeError,
     mkWorld Examples.mismatch_scorer [call_posterior Examples.X1]) /\
  run (qScalarizedUpperConfidenceBound.forward Examples.X2)
      Examples.mc_mismatch_scorer
  = (Raise RuntimeError,
     mkWorld Examples.mc_mismatch_scorer
       [call_posterior Examples.X2; call_sampler Examples.mc_posterior]).
Proof. split; reflexivity. Qed.

Lemma mismatch_raises_after_posterior_witness :
  run (ScalarizedUpperConfidenceBound.forward Examples.X1)
      Examples.mismatch_scorer
  = (Raise RuntimeError,
     mkWorld
       (ScalarizedUpperConfidenceBound.set_beta Examples.mismatch_scorer
          (to (ScalarizedUpperConfidenceBound.beta Examples.mismatch_scorer)
              Examples.X1))
       [call_posterior Examples.X1]) /\
  run (qScalarizedUpperConfidenceBound.forward Examples.X1)
      Examples.mc_scorer_3
  = (Raise RuntimeError,
     mkWorld Examples.mc_scorer_3
       [call_posterior Examples.X1; call_sampler Examples.mismatch_posterior]).
Proof.
  apply (mismatch_raises_after_posterior Examples.mismatch_scorer
           Examples.mc_scorer_3 Examples.X1 Examples.mismatch_posterior
           Examples.mismatch_posterior Examples.mc_samples_3 [1] [1; 1; 1] 1 3);
    try reflexivity; simpl; lia.
Defined.

(** ** The conversion of [beta] *)

Lemma dtype_eqb_eq (a b : dtype) : dtype_eqb a b = true <-> a = b.
Proof. destruct a, b; cbn; split; intros; congruence. Qed.

Lemma options_eqb_eq (a b : TensorOptions) :
  options_eqb a b = true <-> a = b.
Proof.
  destruct a as [da va], b as [db vb]. unfold options_eqb. cbn.
  rewrite andb_true_iff, dtype_eqb_eq. split.
  - intros [-> Hd]. f_equal.
    destruct va as [|i], vb as [|j]; cbn in Hd; try discriminate;
      [reflexivity|]. apply Nat.eqb_eq in Hd. now subst.
  - intros [= -> ->]. split; [reflexivity|].
    destruct vb; cbn; [reflexivity|apply Nat.eqb_refl].
Qed.

Section Conversion.

Context {T : Type} `{Scalar T}.

Lemma to_options (a like : DTensor T) : options (to a like) = options like.
Proof.
  unfold to. destruct (options_eqb (options a) (options like)) eqn:E;
    [|reflexivity].
  now apply options_eqb_eq.
Qed.

Lemma to_same_options (a like : DTensor T) :
  options a = options like -> to a like = a.
Proof.
  intros E. unfold to. apply options_eqb_eq in E. now rewrite E.
Qed.

Lemma to_same_dtype (a like : DTensor T) :
  t_dtype (options a) = t_dtype (options like) ->
  value (to a like) = value a.
Proof.
  intros E. unfold to.
  destruct (options_eqb (options a) (options like)); [reflexivity|].
  apply dtype_eqb_eq in E. now rewrite E.
Qed.

Lemma to_other_dtype (a like : DTensor T) :
  t_dtype (options a) <> t_dtype (options like) ->
  value (to a like) = tmap (s_cast (t_dtype (options like))) (value a).
Proof.
  intros N. unfold to.
  destruct (options_eqb (options a) (options like)) eqn:E.
  - apply options_eqb_eq in E. now rewrite E in N.
  - destruct (dtype_eqb (t_dtype (options a)) (t_dtype (options like)))
      eqn:D; [|reflexivity].
    apply dtype_eqb_eq in D. contradiction.
Qed.

Lemma to_shape (a like : DTensor T) :
  shape (value (to a like)) = shape (value a).
Proof.
  unfold to. destruct (options_eqb (options a) (options like));
    [reflexivity|].
  now destruct (dtype_eqb (t_dtype (options a)) (t_dtype (options like))).
Qed.

Lemma to_wf (a like : DTensor T) :
  wf_tensor (value a) -> wf_tensor (value (to a like)).
Proof.
  unfold wf_tensor. rewrite to_shape. intros <-. unfold to.
  destruct (options_eqb (options a) (options like)); [reflexivity|].
  destruct (dtype_eqb (t_dtype (options a)) (t_dtype (options like)));
    [reflexivity|].
  cbn. now rewrite length_map.
Qed.

End Conversion.

Section AnalyticInstance.

Context {T : Type} `{Scalar T} {ns : Namespace}.

Import ScalarizedUpperConfidenceBound.

(** C5, as the code has it: the analytic [forward] leaves the model, the
    weights and the [maximize] flag of the instance as they are and replaces
    the [beta] buffer by [beta.to(X)], whether it returns or raises: the
    buffer takes the dtype and device of [X] and keeps its shape; its
    elements are kept when the dtype is that of [X] and converted (rounded)
    to the dtype of [X] otherwise; when [beta] has the dtype and device of
    [X] already the instance is unchanged.  The outcome is a function of
    [X] and of the model, the weights, the flag and the converted [beta]. *)
Theorem forward_reassigns_beta (s : t) (X : DTensor T) :
  let s' := self (snd (run (forward X) s)) in
  s' = set_beta s (to (beta s) X) /\
  model s' = model s /\ weights s' = weights s /\ maximize s' = maximize s /\
  options (beta s') = options X /\
  shape (value (beta s')) = shape (value (beta s)) /\
  (t_dtype (options (beta s)) = t_dtype (options X) ->
   value (beta s') = value (beta s)) /\
  (t_dtype (options (beta s)) <> t_dtype (options X) ->
   data (value (beta s'))
   = map (s_cast (t_dtype (options X))) (data (value (beta s)))) /\
  (options (beta s) = options X -> s' = s) /\
  (forall s2 : t,
      model s2 = model s -> weights s2 = weights s ->
      maximize s2 = maximize s -> to (beta s2) X = to (beta s) X ->
      fst (run (forward X) s2) = fst (run (forward X) s)).
Proof.
  cbv zeta. unfold run at 1 2 3 4 5 6 7 8 9. rewrite forward_self.
  cbn [self set_beta model weights maximize beta].
  repeat split.
  - apply to_options.
  - apply to_shape.
  - apply to_same_dtype.
  - intros N. now rewrite to_other_dtype.
  - intros E. rewrite to_same_options by assumption. now destruct s.
  - intros s2 Hm Hw Hx Hb. now rewrite (forward_depends X s2 s).
Qed.

End AnalyticInstance.

(** C5 fails as stated: a scorer whose [beta] was registered in single
    precision holds it in double precision after one call on a double
    precision input. *)
Lemma forward_changes_beta_dtype :
  t_dtype
    (options (ScalarizedUpperConfidenceBound.beta Examples.scenario_scorer))
  = float32 /\
  t_dtype (options (ScalarizedUpperConfidenceBound.beta
     (self (snd (run (ScalarizedUpperConfidenceBound.forward Examples.X1)
                     Examples.scenario_scorer)))))
  = float64.
Proof. split; reflexivity. Qed.

(** ** The analytic score in IEEE arithmetic *)

Section AnalyticIEEE.

Context {T : Type} `{IEEE T} {ns : Namespace}.

Import ScalarizedUpperConfidenceBound.

(** C3, as the code has it: where [torch] is bound, the scalarized variance
    is not clamped.  Whenever the product [beta_t * v] that the code computes
    for a t-batch, [v = w^T (cov_t w)], is negative, its square root is a
    NaN and so is the score of the t-batch, in maximize and in minimize
    mode. *)
Theorem negative_variance_score_is_nan (s : t) (X : DTensor T)
    (p : Posterior T) (bb : Tensor T) (b q d t0 : nat) :
  binds_torch = true ->
  shape (value X) = [b; q; d] ->
  posterior (model s) X = Ok p ->
  shape (mean p) = [b; 1; length (weights s)] ->
  shape (covariance_matrix p) = [b; length (weights s); length (weights s)] ->
  wf_tensor (value (to (beta s) X)) ->
  expand (value (to (beta s) X)) [b] = Ok bb ->
  t0 < b ->
  s_ltb
    (s_mul (get bb t0)
       (quadratic_form (weights s)
          (matrix (length (weights s)) (covariance_matrix p) t0)))
    s_zero = true ->
  exists r,
    fst (run (forward X) s) = Ok r /\ s_is_nan (get r t0) = true.
Proof.
  intros Hns HX Hp Hmu Hcov Hbeta Hbb Ht Hneg.
  destruct (forward_score s X p bb b q d t0) as [r [Hr [_ Hg]]];
    try assumption.
  exists r. split; [assumption|]. rewrite Hg. unfold ucb_score.
  apply sqrt_negative in Hneg.
  destruct (maximize s); [now apply nan_add_r|now apply nan_sub_r].
Qed.

(** C6, as the code has it: where [torch] is bound, when the element of
    [beta] for a t-batch is a zero and the scalarized variance the code
    computes is finite, the score of the t-batch is the scalarized mean
    [w . mean_t] (as a number: the sign of a zero may differ), in maximize
    and in minimize mode. *)
Theorem beta_zero_score_is_scalarized_mean (s : t) (X : DTensor T)
    (p : Posterior T) (bb : Tensor T) (b q d t0 : nat) :
  binds_torch = true ->
  shape (value X) = [b; q; d] ->
  posterior (model s) X = Ok p ->
  shape (mean p) = [b; 1; length (weights s)] ->
  shape (covariance_matrix p) = [b; length (weights s); length (weights s)] ->
  wf_tensor (value (to (beta s) X)) ->
  expand (value (to (beta s) X)) [b] = Ok bb ->
  t0 < b ->
  s_is_zero (get bb t0) = true ->
  s_is_finite
    (quadratic_form (weights s)
       (matrix (length (weights s)) (covariance_matrix p) t0)) = true ->
  exists r,
    fst (run (forward X) s) = Ok r /\
    same (get r t0)
         (scalarize (weights s) (row (length (weights s)) (mean p) t0)).
Proof.
  intros Hns HX Hp Hmu Hcov Hbeta Hbb Ht Hz Hfin.
  destruct (forward_score s X p bb b q d t0) as [r [Hr [_ Hg]]];
    try assumption.
  exists r. split; [assumption|]. rewrite Hg. unfold ucb_score.
  assert (Hd : s_is_zero
                 (s_sqrt
                    (s_mul (get bb t0)
                       (quadratic_form (weights s)
                          (matrix (length (weights s))
                             (covariance_matrix p) t0)))) = true)
    by now apply sqrt_zero, mul_zero_l.
  destruct (maximize s); [now apply add_zero_r|now apply sub_zero_r].
Qed.

Lemma Forall_slice (P : T -> Prop) (s n : nat) (l : list T) :
  Forall P l -> Forall P (slice s n l).
Proof.
  intros Hl. unfold slice.
  rewrite <- (firstn_skipn s l) in Hl. apply Forall_app in Hl.
  destruct Hl as [_ Hl].
  rewrite <- (firstn_skipn n (skipn s l)) in Hl. apply Forall_app in Hl.
  tauto.
Qed.

Lemma nth_slice (s n i : nat) (l : list T) (d : T) :
  i < n -> nth i (slice s n l) d = nth (s + i) l d.
Proof.
  intros Hi. unfold slice. rewrite nth_firstn.
  replace (i <? n) with true by (symmetry; apply Nat.ltb_lt; lia).
  apply nth_skipn.
Qed.

(** C8, as the code has it: where [torch] is bound, with the one-hot weights
    [e_i], finite posterior moments and a finite [beta], the maximize-mode
    score of a t-batch is [mean_i + sqrt (beta * cov_ii)] (as a number): one
    square root, of the product. *)
Theorem one_hot_score_is_single_output_ucb (s : t) (X : DTensor T)
    (p : Posterior T) (bb : Tensor T) (b q d t0 o i : nat) :
  binds_torch = true ->
  weights s = one_hot o i ->
  i < o ->
  maximize s = true ->
  shape (value X) = [b; q; d] ->
  posterior (model s) X = Ok p ->
  shape (mean p) = [b; 1; o] ->
  shape (covariance_matrix p) = [b; o; o] ->
  wf_tensor (mean p) ->
  wf_tensor (covariance_matrix p) ->
  Forall (fun x => s_is_finite x = true) (data (mean p)) ->
  Forall (fun x => s_is_finite x = true) (data (covariance_matrix p)) ->
  wf_tensor (value (to (beta s) X)) ->
  expand (value (to (beta s) X)) [b] = Ok bb ->
  t0 < b ->
  s_is_finite (get bb t0) = true ->
  exists r,
    fst (run (forward X) s) = Ok r /\
    same (get r t0)
         (s_add (get (mean p) (t0 * o + i))
                (s_sqrt (s_mul (get bb t0)
                               (get (covariance_matrix p)
                                    ((t0 * o + i) * o + i))))).
Proof.
  intros Hns Hw Hi Hmax HX Hp Hmu Hcov Hwfm Hwfc Hfm Hfc Hbeta Hbb Ht Hfb.
  assert (Hlw : length (weights s) = o) by (rewrite Hw; apply length_one_hot).
  destruct (forward_score s X p bb b q d t0) as [r [Hr [_ Hg]]];
    try assumption; try (now rewrite Hlw).
  exists r. split; [assumption|]. rewrite Hg, Hmax, Hlw, Hw.
  unfold ucb_score, scalarize.
  unfold wf_tensor in Hwfm, Hwfc. rewrite Hmu in Hwfm. rewrite Hcov in Hwfc.
  cbn [numel fold_right] in Hwfm, Hwfc.
  apply add_same.
  - eapply same_trans.
    + apply dot_one_hot_r; [now apply Forall_slice| |assumption].
      apply slice_length. rewrite Hwfm. nia.
    + unfold row, get. rewrite nth_slice by assumption. apply same_refl.
  - apply sqrt_same, mul_same_r; [assumption|].
    eapply same_trans.
    + apply quadratic_form_one_hot; [|rewrite Forall_forall|assumption].
      * unfold matrix. now rewrite length_map, length_seq.
      * intros y Hy. unfold matrix in Hy. apply in_map_iff in Hy.
        destruct Hy as [j [<- Hj]]. apply in_seq in Hj.
        split; [|now apply Forall_slice].
        apply slice_length. rewrite Hwfc.
        assert (t0 * o + j < b * o) by (apply index_bound; lia).
        nia.
    + unfold matrix.
      rewrite nth_indep with (d' := row o (covariance_matrix p) (t0 * o + 0))
        by (now rewrite length_map, length_seq).
      rewrite (map_nth (fun j => row o (covariance_matrix p) (t0 * o + j))).
      rewrite seq_nth by assumption.
      unfold row, get. rewrite nth_slice by assumption. apply same_refl.
Qed.

End AnalyticIEEE.

(** C3 fails as stated: on one outcome of mean 5 and computed variance -1,
    with weight 1 and beta = 1, the score with [torch] imported is a NaN,
    not the scalarized mean 5; in the notebook the call raises
    [NameError]. *)
Lemma negative_variance_not_clamped :
  fst (run (ScalarizedUpperConfidenceBound.forward (ns := with_imports)
              Examples.X1)
           Examples.negvar_scorer)
  = Ok (mkTensor [1] [PrimFloat.nan]) /\
  scalarize [1%float] (row 1 (mean Examples.negvar_posterior) 0) = 5%float /\
  fst (run (ScalarizedUpperConfidenceBound.forward Examples.X1)
           Examples.negvar_scorer)
  = Raise NameError.
Proof. repeat split; vm_compute; reflexivity. Qed.

Lemma negative_variance_score_is_nan_witness :
  exists r,
    fst (run (ScalarizedUpperConfidenceBound.forward (ns := with_imports)
                Examples.X1)
             Examples.negvar_scorer) = Ok r /\
    s_is_nan (get r 0) = true.
Proof.
  apply (negative_variance_score_is_nan (ns := with_imports)
           Examples.negvar_scorer Examples.X1 Examples.negvar_posterior
           (mkTensor [1] [1%float]) 1 1 3 0);
    try reflexivity; lia.
Defined.

(** C6 fails as stated: with beta = 0, weights 1 and 1, means 1 and 3 and
    variances 1e308 and 1e308, the scalarized mean is 4 and the scalarized
    variance overflows, so the score with [torch] imported is a NaN in both
    modes; in the notebook the call raises [NameError]. *)
Lemma beta_zero_overflow_is_nan :
  scalarize [1; 1]%float (row 2 (mean Examples.overflow_posterior) 0)
  = 4%float /\
  fst (run (ScalarizedUpperConfidenceBound.forward (ns := with_imports)
              Examples.X1)
           (Examples.overflow_scorer 0 true))
  = Ok (mkTensor [1] [PrimFloat.nan]) /\
  fst (run (ScalarizedUpperConfidenceBound.forward (ns := with_imports)
              Examples.X1)
           (Examples.overflow_scorer 0 false))
  = Ok (mkTensor [1] [PrimFloat.nan]) /\
  fst (run (ScalarizedUpperConfidenceBound.forward Examples.X1)
           (Examples.overflow_scorer 0 true))
  = Raise NameError.
Proof. repeat split; vm_compute; reflexivity. Qed.

Lemma beta_zero_score_is_scalarized_mean_witness :
  exists r,
    fst (run (ScalarizedUpperConfidenceBound.forward (ns := with_imports)
                Examples.X1)
             (Examples.scenario_with_beta 0 false)) = Ok r /\
    same (get r 0)
         (scalarize [0.5; 0.5]%float
            (row 2 (mean Examples.scenario_posterior) 0)).
Proof.
  apply (beta_zero_score_is_scalarized_mean (ns := with_imports)
           (Examples.scenario_with_beta 0 false) Examples.X1
           Examples.scenario_posterior (mkTensor [1] [0%float]) 1 1 3 0);
    try reflexivity; lia.
Defined.

(** C8 fails as stated: for the second of two outcomes, with mean 0,
    variance 2 and beta = 2, the score with [torch] imported is
    [0 + sqrt (2 * 2)] = 2, while [0 + sqrt 2 * sqrt 2] is
    2.0000000000000004; in the notebook the call raises [NameError]. *)
Lemma one_hot_score_is_not_product_of_roots :
  fst (run (ScalarizedUpperConfidenceBound.forward (ns := with_imports)
              Examples.X1)
           Examples.one_hot_scorer)
  = Ok (mkTensor [1] [2%float]) /\
  PrimFloat.add 0 (PrimFloat.mul (PrimFloat.sqrt 2) (PrimFloat.sqrt 2))
  = 2.0000000000000004%float /\
  PrimFloat.ltb 2 2.0000000000000004 = true /\
  fst (run (ScalarizedUpperConfidenceBound.forward Examples.X1)
           Examples.one_hot_scorer)
  = Raise NameError.
Proof. repeat split; vm_compute; reflexivity. Qed.

Lemma one_hot_score_is_single_output_ucb_witness :
  exists r,
    fst (run (ScalarizedUpperConfidenceBound.forward (ns := with_imports)
                Examples.X1)
             Examples.one_hot_scorer) = Ok r /\
    same (get r 0)
         (s_add (get (mean Examples.one_hot_posterior) 1)
                (s_sqrt (s_mul 2%float
                           (get (covariance_matrix Examples.one_hot_posterior)
                                3)))).
Proof.
  apply (one_hot_score_is_single_output_ucb (ns := with_imports)
           Examples.one_hot_scorer Examples.X1 Examples.one_hot_posterior
           (mkTensor [1] [2%float]) 1 1 3 0 2 1);
    try reflexivity; try lia; repeat constructor.
Defined.

(** ** Consequences of the laws of the order *)

Section OrderFacts.

Context {T : Type} `{IEEE T}.
























Context `{!IEEEOrder T}.



End OrderFacts.

Section AnalyticOrder.

Context {T : Type} `{IEEEOrder T} {ns : Namespace}.

Import ScalarizedUpperConfidenceBound.


End AnalyticOrder.

Section MonteCarloOrder.

Context {T : Type} `{IEEEOrder T} {ns : Namespace}.

Import qScalarizedUpperConfidenceBound.


End MonteCarloOrder.








(** * Further properties of the two methods *)

Section AnalyticFormula.

Context {T : Type} `{Scalar T} {ns : Namespace}.

Import ScalarizedUpperConfidenceBound.

(** X1: where [torch] is bound, on well-shaped inputs ([X] of shape
    [b x q x d], a posterior mean of shape [b x 1 x o], a covariance of shape
    [b x o x o], [o] weights, the converted beta expanding to one value per
    t-batch) the analytic [forward] returns one score per t-batch, and the
    score of t-batch [t] is [w . mean_t + sqrt (beta_t * (w^T cov_t w))] when
    [maximize] is set and [w . mean_t - sqrt (beta_t * (w^T cov_t w))] when
    it is not. *)
Theorem analytic_forward_score (s : t) (X : DTensor T) (p : Posterior T)
    (bb : Tensor T) (b q d t0 : nat) :
  binds_torch = true ->
  shape (value X) = [b; q; d] ->
  posterior (model s) X = Ok p ->
  shape (mean p) = [b; 1; length (weights s)] ->
  shape (covariance_matrix p) = [b; length (weights s); length (weights s)] ->
  wf_tensor (value (to (beta s) X)) ->
  expand (value (to (beta s) X)) [b] = Ok bb ->
  t0 < b ->
  exists r,
    fst (run (forward X) s) = Ok r /\ shape r = [b] /\
    let w := weights s in
    let m := scalarize w (row (length w) (mean p) t0) in
    let v := quadratic_form w (matrix (length w) (covariance_matrix p) t0) in
    get r t0 = if maximize s
               then s_add m (s_sqrt (s_mul (get bb t0) v))
               else s_sub m (s_sqrt (s_mul (get bb t0) v)).
Proof.
  intros Hns HX Hp Hmu Hcov Hbeta Hbb Ht.
  destruct (forward_score s X p bb b q d t0) as [r [Hr [Hs Hg]]];
    try assumption.
  exists r. split; [assumption|]. split; [assumption|].
  cbv zeta. rewrite Hg. unfold ucb_score. now destruct (maximize s).
Qed.

(** X12: where [torch] is bound, the covariance must hold one [o x o]
    matrix per t-batch: with another number of matrices or of columns the
    inner [torch.bmm] raises. *)
Theorem covariance_mismatch_raises (s : t) (X : DTensor T) (p : Posterior T)
    (b q d b' n m : nat) :
  binds_torch = true ->
  shape (value X) = [b; q; d] ->
  posterior (model s) X = Ok p ->
  shape (mean p) = [b; 1; length (weights s)] ->
  shape (covariance_matrix p) = [b'; n; m] ->
  (b' =? b) && (m =? length (weights s)) = false ->
  run (forward X) s
  = (Raise RuntimeError,
     mkWorld (set_beta s (to (beta s) X)) [call_posterior X]).
Proof.
  intros Hns HX Hp Hmu Hcov Hne.
  unfold run, forward, bind, get_self, set_self, log_call, lift.
  cbn [self calls app set_beta model beta weights maximize].
  rewrite Hp, HX, Hns. cbn [shape_but_last2 length Nat.sub firstn lookup].
  rewrite (squeeze_m2_q1 _ _ _ Hmu).
  rewrite matmul_rows with (s := [b]) (o := length (weights s))
    by reflexivity.
  pose proof (expand_weights (weights s) b) as HW. unfold rbind in HW.
  destruct (view_1_m1_1 (weights s)) as [W|e]; [|discriminate].
  rewrite HW, permute_weights.
  unfold bmm at 1. rewrite Hcov. cbn [shape]. now rewrite Hne.
Qed.

(** X13: where [torch] is bound, a [beta] that does not expand to one value
    per t-batch makes [expand_as] raise, after the scalarized variance has
    been computed. *)
Theorem beta_of_wrong_size_raises (s : t) (X : DTensor T) (p : Posterior T)
    (b q d : nat) (e : exn) :
  binds_torch = true ->
  shape (value X) = [b; q; d] ->
  posterior (model s) X = Ok p ->
  shape (mean p) = [b; 1; length (weights s)] ->
  shape (covariance_matrix p) = [b; length (weights s); length (weights s)] ->
  expand (value (to (beta s) X)) [b] = Raise e ->
  run (forward X) s
  = (Raise e, mkWorld (set_beta s (to (beta s) X)) [call_posterior X]).
Proof.
  intros Hns HX Hp Hmu Hcov Hbb.
  unfold run, forward, bind, get_self, set_self, log_call, lift.
  cbn [self calls app set_beta model beta weights maximize].
  rewrite Hp, HX, Hns. cbn [shape_but_last2 length Nat.sub firstn lookup].
  rewrite (squeeze_m2_q1 _ _ _ Hmu).
  rewrite matmul_rows with (s := [b]) (o := length (weights s))
    by reflexivity.
  pose proof (expand_weights (weights s) b) as HW. unfold rbind in HW.
  destruct (view_1_m1_1 (weights s)) as [W|e']; [|discriminate].
  rewrite HW, permute_weights, (bmm_covs_weights _ _ _ Hcov),
    bmm_weights_inner.
  unfold view. cbn [shape numel fold_right data].
  replace (b * 1 =? b * (1 * (1 * 1))) with true
    by (symmetry; apply Nat.eqb_eq; lia).
  unfold expand_as. cbn [shape numel fold_right]. rewrite Nat.mul_1_r.
  now rewrite Hbb.
Qed.

(** X7: the analytic [forward] assumes a single t-batch dimension: on an
    input with two t-batch dimensions the weights are expanded to four
    dimensions and [permute(0, 2, 1)] raises, in every namespace. *)
Theorem several_batch_dimensions_raise (s : t) (X : DTensor T)
    (p : Posterior T) (b1 b2 q d : nat) :
  shape (value X) = [b1; b2; q; d] ->
  posterior (model s) X = Ok p ->
  shape (mean p) = [b1; b2; 1; length (weights s)] ->
  run (forward X) s
  = (Raise RuntimeError,
     mkWorld (set_beta s (to (beta s) X)) [call_posterior X]).
Proof.
  intros HX Hp Hmu.
  unfold run, forward, bind, get_self, set_self, log_call, lift.
  cbn [self calls app set_beta model beta weights maximize].
  rewrite Hp, HX. cbn [shape_but_last2 length Nat.sub firstn].
  unfold squeeze_m2. rewrite Hmu. cbn [rev app Nat.eqb].
  rewrite matmul_rows with (s := [b1; b2]) (o := length (weights s))
    by reflexivity.
  unfold view_1_m1_1, expand.
  cbn [shape tl app length Nat.leb Nat.sub repeat expandable].
  rewrite !Nat.eqb_refl, ?orb_true_r. cbn [andb orb].
  reflexivity.
Qed.

(** X8: an exception of [model.posterior] leaves the analytic [forward]
    as it is raised, after [beta] has been reassigned. *)
Theorem analytic_posterior_error (s : t) (X : DTensor T) (e : exn) :
  posterior (model s) X = Raise e ->
  run (forward X) s
  = (Raise e, mkWorld (set_beta s (to (beta s) X)) [call_posterior X]).
Proof.
  intros Hp.
  unfold run, forward, bind, get_self, set_self, log_call, lift.
  cbn [self calls app set_beta model beta weights maximize].
  now rewrite Hp.
Qed.

(** X6: a second call of the analytic [forward] on the same input leaves
    the instance as the first call left it. *)
Theorem forward_twice (s : t) (X : DTensor T) :
  let s1 := self (snd (run (forward X) s)) in
  self (snd (run (forward X) s1)) = s1.
Proof.
  cbv zeta. unfold run. rewrite !forward_self. cbn [self set_beta beta].
  rewrite (to_same_options (to (beta s) X) X) by apply to_options.
  reflexivity.
Qed.

End AnalyticFormula.

Section MonteCarloFormula.

Context {T : Type} `{Scalar T} {ns : Namespace}.

Import qScalarizedUpperConfidenceBound.

(** X2: where [math] is bound, on [n] draws of shape [n x b x q x o] and a
    posterior mean of shape [b x q x o], with [o] weights, [q >= 1] and a
    one-element beta for which [math.sqrt (beta * pi / 2)] is defined, the
    Monte-Carlo [forward] returns one score per t-batch, and the score of
    t-batch [t] is the arithmetic mean over the draws of the maximum over
    the [q] points of
    [scalarized_mean[t,q] + sqrt (beta * pi / 2) *
     |scalarized_samples[n,t,q] - scalarized_mean[t,q]|],
    the scalarized values being the dot products with the weights. *)
Theorem mc_forward_score (s : t) (X : DTensor T) (p : Posterior T)
    (Y : Tensor T) (x factor : T) (n b q t0 : nat) :
  binds_math = true ->
  posterior (model s) X = Ok p ->
  sampler s p = Ok Y ->
  shape Y = [n; b; q; length (weights s)] ->
  shape (mean p) = [b; q; length (weights s)] ->
  q <> 0 ->
  data (value (beta s)) = [x] ->
  s_math_sqrt (s_div (s_mul x s_pi) (s_of_nat 2)) = Some factor ->
  t0 < b ->
  exists r,
    fst (run (forward X) s) = Ok r /\ shape r = [b] /\
    let w := weights s in
    let o := length w in
    let scalarized_mean j := dot (row o (mean p) (t0 * q + j)) w in
    let scalarized_samples i j := dot (row o Y ((i * b + t0) * q + j)) w in
    get r t0
    = s_div
        (sum (map (fun i =>
                max_list (map (fun j =>
                  s_add (scalarized_mean j)
                        (s_mul factor
                           (s_abs (s_sub (scalarized_samples i j)
                                         (scalarized_mean j)))))
                  (seq 0 q)))
              (seq 0 n)))
        (s_of_nat n).
Proof.
  intros Hns Hp HY HsY Hmu Hq Hbeta Hsqrt Ht.
  destruct (forward_mc_score s X p Y x factor n b q t0)
    as [r [Hr [Hs Hg]]]; try assumption.
  exists r. split; [assumption|]. split; [assumption|].
  cbv zeta. rewrite Hg. reflexivity.
Qed.

(** X11: where [math] is bound, a [beta] for which [beta * pi / 2] is
    negative makes [math.sqrt] raise [ValueError], after the posterior and
    the sampler have been called. *)
Theorem mc_negative_beta_raises (s : t) (X : DTensor T) (p : Posterior T)
    (Y : Tensor T) (x : T) (sY sm : list nat) :
  binds_math = true ->
  posterior (model s) X = Ok p ->
  sampler s p = Ok Y ->
  shape Y = sY ++ [length (weights s)] ->
  shape (mean p) = sm ++ [length (weights s)] ->
  data (value (beta s)) = [x] ->
  s_math_sqrt (s_div (s_mul x s_pi) (s_of_nat 2)) = None ->
  run (forward X) s
  = (Raise ValueError, mkWorld s [call_posterior X; call_sampler p]).
Proof.
  intros Hns Hp HY HsY Hmu Hbeta Hsqrt.
  unfold run, forward, bind, get_self, log_call, lift.
  cbn [self calls app]. rewrite Hp, HY.
  rewrite (matmul_rows _ _ sY _ HsY eq_refl).
  rewrite (matmul_rows _ _ sm _ Hmu eq_refl).
  rewrite Hns. cbn [lookup].
  unfold item, tmap. cbn [data]. rewrite Hbeta. cbn [map].
  unfold math_sqrt. now rewrite Hsqrt.
Qed.

(** X9: an exception of [model.posterior] or of the sampler leaves the
    Monte-Carlo [forward] as it is raised; the instance is unchanged. *)
Theorem mc_collaborator_errors (s : t) (X : DTensor T) (e : exn) :
  (posterior (model s) X = Raise e ->
   run (forward X) s = (Raise e, mkWorld s [call_posterior X])) /\
  (forall p, posterior (model s) X = Ok p -> sampler s p = Raise e ->
   run (forward X) s
   = (Raise e, mkWorld s [call_posterior X; call_sampler p])).
Proof.
  split.
  - intros Hp. unfold run, forward, bind, get_self, log_call, lift.
    cbn [self calls app]. now rewrite Hp.
  - intros p Hp HY. unfold run, forward, bind, get_self, log_call, lift.
    cbn [self calls app]. now rewrite Hp, HY.
Qed.

(** X10: the Monte-Carlo [forward] never changes its instance, whether it
    returns or raises. *)
Theorem mc_forward_keeps_instance (s : t) (X : DTensor T) :
  self (snd (run (forward X) s)) = s.
Proof.
  assert (K : keeps_self (forward X)) by (unfold forward; keeps_self).
  exact (K (mkWorld s [])).
Qed.

End MonteCarloFormula.

Section NotebookOutcomes.

Context {T : Type} `{Scalar T}.

(** X3: in the notebook the analytic [forward] returns on no input: every
    call raises, at the latest at the lookup of [torch]. *)
Theorem analytic_forward_never_returns
    (s : ScalarizedUpperConfidenceBound.t) (X : DTensor T) :
  exists e, fst (run (ScalarizedUpperConfidenceBound.forward X) s) = Raise e.
Proof.
  unfold run, ScalarizedUpperConfidenceBound.forward, bind, get_self,
    set_self, log_call, lift.
  cbn [self calls app ScalarizedUpperConfidenceBound.set_beta
       ScalarizedUpperConfidenceBound.model
       ScalarizedUpperConfidenceBound.weights].
  destruct (posterior _ X) as [p|e]; [|now exists e].
  destruct (squeeze_m2 _) as [m|e]; [|now exists e].
  destruct (matmul _ _) as [sm|e]; [|now exists e].
  destruct (view_1_m1_1 _) as [W|e]; [|now exists e].
  destruct (expand _ _) as [W'|e]; [|now exists e].
  destruct (permute_0_2_1 _) as [Wt|e]; [|now exists e].
  now exists NameError.
Qed.

(** X4: in the notebook the Monte-Carlo [forward] returns on no input:
    every call raises, at the latest at the lookup of [math]. *)
Theorem mc_forward_never_returns
    (s : qScalarizedUpperConfidenceBound.t) (X : DTensor T) :
  exists e, fst (run (qScalarizedUpperConfidenceBound.forward X) s) = Raise e.
Proof.
  unfold run, qScalarizedUpperConfidenceBound.forward, bind, get_self,
    log_call, lift.
  cbn [self calls app].
  destruct (posterior _ X) as [p|e]; [|now exists e].
  destruct (qScalarizedUpperConfidenceBound.sampler _ _) as [Y|e];
    [|now exists e].
  destruct (matmul Y _) as [ss|e]; [|now exists e].
  destruct (matmul _ _) as [sm|e]; [|now exists e].
  now exists NameError.
Qed.

End NotebookOutcomes.

Section AnalyticNaN.

Context {T : Type} `{IEEE T} {ns : Namespace}.

Import ScalarizedUpperConfidenceBound.

(** X14: where [torch] is bound, a scalarized mean that is a NaN gives a
    NaN score, in maximize and in minimize mode. *)
Theorem nan_mean_gives_nan_score (s : t) (X : DTensor T) (p : Posterior T)
    (bb : Tensor T) (b q d t0 : nat) :
  binds_torch = true ->
  shape (value X) = [b; q; d] ->
  posterior (model s) X = Ok p ->
  shape (mean p) = [b; 1; length (weights s)] ->
  shape (covariance_matrix p) = [b; length (weights s); length (weights s)] ->
  wf_tensor (value (to (beta s) X)) ->
  expand (value (to (beta s) X)) [b] = Ok bb ->
  t0 < b ->
  s_is_nan (scalarize (weights s) (row (length (weights s)) (mean p) t0))
  = true ->
  exists r,
    fst (run (forward X) s) = Ok r /\ s_is_nan (get r t0) = true.
Proof.
  intros Hns HX Hp Hmu Hcov Hbeta Hbb Ht Hnan.
  destruct (forward_score s X p bb b q d t0) as [r [Hr [_ Hg]]];
    try assumption.
  exists r. split; [assumption|]. rewrite Hg. unfold ucb_score.
  destruct (maximize s); [now apply nan_add_l|now apply nan_sub_l].
Qed.

End AnalyticNaN.


Lemma analytic_forward_score_witness :
  exists r,
    fst (run (ScalarizedUpperConfidenceBound.forward (ns := with_imports)
                Examples.X1)
             Examples.scenario_scorer) = Ok r /\
    shape r = [1] /\
    get r 0
    = s_add
        (scalarize [0.5; 0.5]%float
           (row 2 (mean Examples.scenario_posterior) 0))
        (s_sqrt
           (s_mul (get (mkTensor [1] [4%float]) 0)
              (quadratic_form [0.5; 0.5]%float
                 (matrix 2 (covariance_matrix Examples.scenario_posterior)
                    0)))).
Proof.
  apply (analytic_forward_score (ns := with_imports)
           Examples.scenario_scorer Examples.X1
           Examples.scenario_posterior (mkTensor [1] [4%float]) 1 1 3 0);
    try reflexivity; lia.
Defined.

Lemma mc_forward_score_witness :
  exists r,
    fst (run (qScalarizedUpperConfidenceBound.forward (ns := with_imports)
                Examples.X2)
             Examples.mc_scorer) = Ok r /\
    shape r = [2] /\ PrimFloat.ltb 1%float (get r 1) = true.
Proof.
  destruct (mc_forward_score (ns := with_imports)
              Examples.mc_scorer Examples.X2
              Examples.mc_posterior Examples.mc_samples 4%float
              (PrimFloat.sqrt (PrimFloat.div (PrimFloat.mul 4 float_pi) 2))
              3 2 2 1) as [r [Hr [Hs Hg]]]; try reflexivity; try lia.
  exists r. split; [exact Hr|]. split; [exact Hs|].
  cbv zeta in Hg. rewrite Hg. vm_compute. reflexivity.
Defined.

Lemma covariance_mismatch_raises_witness :
  run (ScalarizedUpperConfidenceBound.forward (ns := with_imports)
         Examples.X1)
      Examples.wide_covariance_scorer
  = (Raise RuntimeError,
     mkWorld Examples.wide_covariance_scorer [call_posterior Examples.X1]).
Proof.
  apply (covariance_mismatch_raises (ns := with_imports)
           Examples.wide_covariance_scorer Examples.X1
           Examples.wide_covariance_posterior 1 1 3 1 3 3); reflexivity.
Defined.

Lemma beta_of_wrong_size_raises_witness :
  run (ScalarizedUpperConfidenceBound.forward (ns := with_imports)
         Examples.X5)
      Examples.two_betas_scorer
  = (Raise RuntimeError,
     mkWorld Examples.two_betas_scorer [call_posterior Examples.X5]).
Proof.
  apply (beta_of_wrong_size_raises (ns := with_imports)
           Examples.two_betas_scorer Examples.X5
           Examples.three_batch_posterior 3 1 1 RuntimeError); reflexivity.
Defined.

Lemma several_batch_dimensions_raise_witness :
  run (ScalarizedUpperConfidenceBound.forward Examples.X4)
      Examples.two_batch_scorer
  = (Raise RuntimeError,
     mkWorld Examples.two_batch_scorer [call_posterior Examples.X4]).
Proof.
  apply (several_batch_dimensions_raise Examples.two_batch_scorer
           Examples.X4 Examples.two_batch_posterior 1 2 1 3); reflexivity.
Defined.

Lemma analytic_posterior_error_witness :
  run (ScalarizedUpperConfidenceBound.forward Examples.X1)
      Examples.failing_scorer
  = (Raise ValueError,
     mkWorld Examples.failing_scorer [call_posterior Examples.X1]).
Proof.
  apply (analytic_posterior_error Examples.failing_scorer Examples.X1
           ValueError); reflexivity.
Defined.

Lemma mc_negative_beta_raises_witness :
  run (qScalarizedUpperConfidenceBound.forward (ns := with_imports)
         Examples.X3)
      (Examples.draws_scorer (-1) 2 0.5)
  = (Raise ValueError,
     mkWorld (Examples.draws_scorer (-1) 2 0.5)
       [call_posterior Examples.X3; call_sampler Examples.tenth_posterior]).
Proof.
  apply (mc_negative_beta_raises (ns := with_imports)
           (Examples.draws_scorer (-1) 2 0.5) Examples.X3
           Examples.tenth_posterior (mkTensor [2; 1; 1; 1] [0.5; 0.5]%float)
           (-1)%float [2; 1; 1] [1; 1]); reflexivity.
Defined.

Lemma nan_mean_gives_nan_score_witness :
  exists r,
    fst (run (ScalarizedUpperConfidenceBound.forward (ns := with_imports)
                Examples.X1)
             Examples.nan_mean_scorer) = Ok r /\
    s_is_nan (get r 0) = true.
Proof.
  apply (nan_mean_gives_nan_score (ns := with_imports)
           Examples.nan_mean_scorer Examples.X1 Examples.nan_mean_posterior
           (mkTensor [1] [1%float]) 1 1 3 0);
    try reflexivity; lia.
Defined.

Section CallsAndEdges.

Context {T : Type} `{IEEE T} {ns : Namespace}.

Import ScalarizedUpperConfidenceBound.

(** X15: whatever the outcome, the analytic [forward] calls
    [model.posterior] once, on its input, and calls nothing else. *)
Theorem analytic_forward_calls_posterior_once (s : t) (X : DTensor T) :
  calls (snd (run (forward X) s)) = [call_posterior X].
Proof.
  unfold run, forward, bind, get_self, set_self, log_call, lift.
  cbn [self calls app set_beta model beta weights maximize].
  repeat match goal with
         | |- context [match ?r with Ok _ => _ | Raise _ => _ end] =>
             destruct r; try reflexivity
         | |- context [if ?c then _ else _] => destruct c; try reflexivity
         end.
Qed.

(** X16: where [torch] is bound, without weights and outcomes
    ([view(1, -1, 1)] infers the size 0) the score of a t-batch with a
    finite [beta] is a zero. *)
Theorem no_weights_score_is_zero (s : t) (X : DTensor T) (p : Posterior T)
    (bb : Tensor T) (b q d t0 : nat) :
  binds_torch = true ->
  weights s = [] ->
  shape (value X) = [b; q; d] ->
  posterior (model s) X = Ok p ->
  shape (mean p) = [b; 1; 0] ->
  shape (covariance_matrix p) = [b; 0; 0] ->
  wf_tensor (value (to (beta s) X)) ->
  expand (value (to (beta s) X)) [b] = Ok bb ->
  t0 < b ->
  s_is_finite (get bb t0) = true ->
  exists r,
    fst (run (forward X) s) = Ok r /\ s_is_zero (get r t0) = true.
Proof.
  intros Hns Hw HX Hp Hmu Hcov Hbeta Hbb Ht Hfin.
  destruct (forward_score s X p bb b q d t0) as [r [Hr [_ Hg]]];
    try assumption; try (now rewrite Hw).
  exists r. split; [assumption|]. rewrite Hg, Hw.
  unfold ucb_score, scalarize, quadratic_form, dot. cbn [length].
  unfold row, slice. cbn [firstn combine matrix seq map fold_left].
  assert (Hd : s_is_zero (s_sqrt (s_mul (get bb t0) s_zero)) = true)
    by (apply sqrt_zero, mul_zero_r; [apply zero_is_zero|assumption]).
  destruct (maximize s).
  - apply (same_zero _ s_zero); [now apply add_zero_r|apply zero_is_zero].
  - apply (same_zero _ s_zero); [now apply sub_zero_r|apply zero_is_zero].
Qed.

End CallsAndEdges.

Lemma no_weights_score_is_zero_witness :
  exists r,
    fst (run (ScalarizedUpperConfidenceBound.forward (ns := with_imports)
                Examples.X1)
             Examples.no_weights_scorer) = Ok r /\
    s_is_zero (get r 0) = true.
Proof.
  apply (no_weights_score_is_zero (ns := with_imports)
           Examples.no_weights_scorer Examples.X1
           Examples.no_outcome_posterior (mkTensor [1] [2%float]) 1 1 3 0);
    try reflexivity; lia.
Defined.
